(** * Object aggregation, interface identifiers, trace resolution and
      attribute accessors of ns-3 (src/core/object.cc and
      src/core/attribute-accessor-helper.h)

    The objects of object.cc live in a heap addressed by pointers; every
    member function becomes a computation over that heap which can finish,
    stop on a failed NS_ASSERT, stop on an access to memory that holds no
    object, or run out of the fuel that bounds its loops.

    The member functions are run on pointers. Ptr<T> is declared in ptr.h,
    which is not among the sources: where a function takes a Ptr<Object>
    by value, the reference that this parameter holds while the function
    runs is added around the body (AddInterface_call); where a function
    returns a Ptr<Object>, the result is the pointer that the handle holds
    and the reference of the handle is the caller's. *)

From Stdlib Require Import NArith Ascii String List Lia.
From stdpp Require Import base gmap list.

Set Warnings "-clear-no-such-hyp".

Local Open Scope N_scope.

(** ** Outcomes and the state monad *)

Inductive reason : Type :=
| AssertFailed      (* an NS_ASSERT did not hold *)
| InvalidAccess     (* a pointer that designates no live object was used *)
| OutOfFuel.        (* the loop bound of the model was reached *)

Inductive outcome (A : Type) : Type :=
| Ret (a : A)
| Stop (r : reason).
Arguments Ret {A} a.
Arguments Stop {A} r.

(** Pointers are addresses; 0 is the null pointer. *)
Abbreviation ptr := nat (only parsing).
Definition null : ptr := 0%nat.

(** The data members of Object (declared in object.h): m_count and the
    accumulator of CheckLoose are uint32_t, an InterfaceId holds a
    uint16_t. *)
Record Object : Type := mkObject {
  m_count : N;
  m_iid : N;
  m_disposed : bool;
  m_collecting : bool;
  m_next : ptr
}.

(** What a member function does that is visible outside the heap: a
    destroyed object, a call of the virtual teardown hook, a call that
    reaches a trace resolver. *)
Inductive event : Type :=
| EvDelete (p : ptr)
| EvDoDispose (p : ptr)
| EvCollectSources (p : ptr) (fullpath : string)
| EvTraceAll (p : ptr)
| EvConnect (p : ptr) (subpath : string)
| EvDisconnect (p : ptr) (subpath : string).

Record State : Type := mkState {
  heap : gmap nat Object;
  trace : list event
}.

Definition M (A : Type) : Type := State -> outcome A * State.

Definition ret {A} (a : A) : M A := fun s => (Ret a, s).

Definition bind {A B} (m : M A) (k : A -> M B) : M B :=
  fun s =>
    match m s with
    | (Ret a, s') => k a s'
    | (Stop r, s') => (Stop r, s')
    end.

Definition stop {A} (r : reason) : M A := fun s => (Stop r, s).

Notation "x <- m ;; k" := (bind m (fun x => k))
  (at level 20, m at level 99, k at level 200, only parsing).
Notation "m ;; k" := (bind m (fun _ => k))
  (at level 100, k at level 200, only parsing, right associativity).

(** Modelled from the spec: NS_ASSERT (assert.h is not among the sources);
    the spec makes a violated assertion fatal at the point of detection. *)
Definition NS_ASSERT (b : bool) : M unit :=
  fun s => if b then (Ret tt, s) else (Stop AssertFailed, s).

(** Reading through a pointer. *)
Definition load (p : ptr) : M Object :=
  fun s =>
    match heap s !! p with
    | Some o => (Ret o, s)
    | None => (Stop InvalidAccess, s)
    end.

(** Writing a data member through a pointer. *)
Definition update (p : ptr) (f : Object -> Object) : M unit :=
  fun s =>
    match heap s !! p with
    | Some o => (Ret tt, mkState (<[p := f o]> (heap s)) (trace s))
    | None => (Stop InvalidAccess, s)
    end.

Definition emit (e : event) : M unit :=
  fun s => (Ret tt, mkState (heap s) (trace s ++ [e])).

Definition set_next (n : ptr) (o : Object) : Object :=
  mkObject (m_count o) (m_iid o) (m_disposed o) (m_collecting o) n.
Definition set_disposed (b : bool) (o : Object) : Object :=
  mkObject (m_count o) (m_iid o) b (m_collecting o) (m_next o).
Definition set_collecting (b : bool) (o : Object) : Object :=
  mkObject (m_count o) (m_iid o) (m_disposed o) b (m_next o).
Definition set_count (c : N) (o : Object) : Object :=
  mkObject c (m_iid o) (m_disposed o) (m_collecting o) (m_next o).
Definition set_iid (i : N) (o : Object) : Object :=
  mkObject (m_count o) i (m_disposed o) (m_collecting o) (m_next o).

(** [delete p]: the destructor ~Object clears m_next, then the storage is
    released. *)
Definition delete_object (p : ptr) : M unit :=
  fun s =>
    match heap s !! p with
    | Some _ => (Ret tt, mkState (delete p (heap s)) (trace s ++ [EvDelete p]))
    | None => (Stop InvalidAccess, s)
    end.

Definition ptr_eqb (a b : ptr) : bool := Nat.eqb a b.

(** ** IidTree: the parent table of interface identifiers
       (object.cc, lines 40-61) *)

(** std::vector::resize, new slots value-initialised. *)
Definition resize (n : nat) (v : list N) : list N :=
  firstn n v ++ repeat 0 (n - length v)%nat.

Record IidTree : Type := mkIidTree { m_parents : list N }.

Definition SetParent (child parent : N) (t : IidTree) : IidTree :=
  mkIidTree (<[N.to_nat child := parent]> (resize (N.to_nat (child + 1)) (m_parents t))).

(** What the code keeps in process-wide singletons and statics, and the
    helpers of the TraceResolver base class and of UidManager whose code is
    in other files: they are fixed while the member functions run. *)
Record Env : Type := mkEnv {
  iid_tree : IidTree;               (* Singleton<IidTree> *)
  Object_iid : N;                   (* Object::iid () *)
  LookupByName : string -> N;       (* UidManager::LookupByName *)
  LookupByUid : N -> string;        (* UidManager::LookupByUid *)
  GetElement : string -> string;    (* TraceResolver::GetElement *)
  GetSubpath : string -> string     (* TraceResolver::GetSubpath *)
}.

Section ObjectModel.

Context (E : Env).

Definition LookupParent (child : N) : M N :=
  NS_ASSERT (child <? N.of_nat (length (m_parents (iid_tree E)))) ;;
  match m_parents (iid_tree E) !! N.to_nat child with
  | Some p => ret p
  | None => stop InvalidAccess
  end.

(** ** Object::CheckLoose (object.cc, lines 310-323) *)

Definition uint32 (n : N) : N := n mod 2 ^ 32.

Fixpoint CheckLoose_loop (fuel : nat) (this current : ptr) (refcount : N) : M N :=
  match fuel with
  | O => stop OutOfFuel
  | S fuel' =>
      o <- load current ;;
      let refcount := uint32 (refcount + m_count o) in
      let current := m_next o in
      if ptr_eqb current this then ret refcount
      else CheckLoose_loop fuel' this current refcount
  end.

Definition CheckLoose (fuel : nat) (this : ptr) : M bool :=
  refcount <- CheckLoose_loop fuel this this 0 ;;
  ret (0 <? refcount).

(** ** Object::DoQueryInterface (object.cc, lines 214-233) *)

(** while (cur != iid && cur != Object::iid ()) cur = LookupParent (cur); *)
Fixpoint walk_parents (fuel : nat) (iid cur : N) : M N :=
  if negb (cur =? iid) && negb (cur =? Object_iid E) then
    match fuel with
    | O => stop OutOfFuel
    | S fuel' => p <- LookupParent cur ;; walk_parents fuel' iid p
    end
  else ret cur.

Fixpoint DoQueryInterface_loop (fuel : nat) (this currentObject : ptr) (iid : N) : M ptr :=
  match fuel with
  | O => stop OutOfFuel
  | S fuel' =>
      NS_ASSERT (negb (ptr_eqb currentObject null)) ;;
      o <- load currentObject ;;
      cur <- walk_parents fuel' iid (m_iid o) ;;
      if cur =? iid then ret currentObject
      else
        let currentObject := m_next o in
        if ptr_eqb currentObject this then ret null
        else DoQueryInterface_loop fuel' this currentObject iid
  end.

(** The result is the pointer held by the Ptr<Object> that the function
    returns; the reference which that handle takes on the member found is
    the caller's and is not part of the state given back here. *)
Definition DoQueryInterface (fuel : nat) (this : ptr) (iid : N) : M ptr :=
  b <- CheckLoose fuel this ;;
  NS_ASSERT b ;;
  DoQueryInterface_loop fuel this this iid.

(** ** Object::Dispose and Object::DoDispose (object.cc, lines 234-245, 282-286) *)

(** Object::DoDispose is virtual; this is the body Object gives it, with
    the call recorded. *)
Definition DoDispose (this : ptr) : M unit :=
  emit (EvDoDispose this) ;;
  o <- load this ;;
  NS_ASSERT (negb (m_disposed o)).

Fixpoint Dispose_loop (fuel : nat) (this current : ptr) : M unit :=
  match fuel with
  | O => stop OutOfFuel
  | S fuel' =>
      NS_ASSERT (negb (ptr_eqb current null)) ;;
      o <- load current ;;
      NS_ASSERT (negb (m_disposed o)) ;;
      DoDispose current ;;
      update current (set_disposed true) ;;
      o' <- load current ;;
      let current := m_next o' in
      if ptr_eqb current this then ret tt
      else Dispose_loop fuel' this current
  end.

Definition Dispose (fuel : nat) (this : ptr) : M unit :=
  Dispose_loop fuel this this.

(** ** Object::AddInterface (object.cc, lines 247-260) *)

(** The statements of the body, [o] being the pointer that the parameter
    holds. The reference of the parameter itself is in AddInterface_call,
    below. *)
Definition AddInterface (fuel : nat) (this o : ptr) : M unit :=
  t <- load this ;;
  NS_ASSERT (negb (m_disposed t)) ;;
  ob <- load o ;;
  NS_ASSERT (negb (m_disposed ob)) ;;
  b1 <- CheckLoose fuel this ;;
  NS_ASSERT b1 ;;
  b2 <- CheckLoose fuel o ;;
  NS_ASSERT b2 ;;
  let other := o in
  t <- load this ;;
  let next := m_next t in
  ot <- load other ;;
  update this (set_next (m_next ot)) ;;
  update other (set_next next) ;;
  b3 <- CheckLoose fuel this ;;
  NS_ASSERT b3 ;;
  b4 <- CheckLoose fuel o ;;
  NS_ASSERT b4.

(** ** Object::SetInterfaceId, Object::Check (object.cc, lines 275-280, 297-301) *)

Definition Check (this : ptr) : M bool :=
  o <- load this ;;
  ret (0 <? m_count o).

Definition SetInterfaceId (this : ptr) (iid : N) : M unit :=
  b <- Check this ;;
  NS_ASSERT b ;;
  update this (set_iid iid).

(** ** Object::MaybeDelete (object.cc, lines 325-350) *)

(** The first loop; [true] stands for the early return taken when a member
    with a non-zero count is met. *)
Fixpoint MaybeDelete_scan (fuel : nat) (this current : ptr) : M bool :=
  match fuel with
  | O => stop OutOfFuel
  | S fuel' =>
      NS_ASSERT (negb (ptr_eqb current null)) ;;
      o <- load current ;;
      if negb (m_count o =? 0) then ret true
      else
        let current := m_next o in
        if ptr_eqb current this then ret false
        else MaybeDelete_scan fuel' this current
  end.

(** The second loop. *)
Fixpoint MaybeDelete_release (fuel : nat) (end_ current : ptr) : M unit :=
  match fuel with
  | O => stop OutOfFuel
  | S fuel' =>
      NS_ASSERT (negb (ptr_eqb current null)) ;;
      o <- load current ;;
      let next := m_next o in
      delete_object current ;;
      let current := next in
      if ptr_eqb current end_ then ret tt
      else MaybeDelete_release fuel' end_ current
  end.

Definition MaybeDelete (fuel : nat) (this : ptr) : M unit :=
  referenced <- MaybeDelete_scan fuel this this ;;
  if referenced then ret tt
  else MaybeDelete_release fuel this this.

(** ** The reference held by a Ptr<Object> passed by value *)

(** Modelled from the spec: Object::Ref and Object::Unref (object.h is not
    among the sources). Increment and decrement act on the count of the one
    member; a decrement that reaches zero runs MaybeDelete, which looks at
    the whole ring. m_count is a uint32_t. *)
Definition Ref (this : ptr) : M unit :=
  update this (fun o => set_count (uint32 (m_count o + 1)) o).

Definition Unref (fuel : nat) (this : ptr) : M unit :=
  update this (fun o => set_count (uint32 (m_count o + (2 ^ 32 - 1))) o) ;;
  o <- load this ;;
  if m_count o =? 0 then MaybeDelete fuel this else ret tt.

(** Modelled from the spec: the parameter Ptr<Object> o of
    Object::AddInterface is a holder of a reference (ptr.h is not among the
    sources). It is passed by value: it takes its reference on the argument
    before the first statement of the body and gives it back when the
    function has returned. *)
Definition AddInterface_call (fuel : nat) (this o : ptr) : M unit :=
  Ref o ;;
  AddInterface fuel this o ;;
  Unref fuel o.

(** ** Object::GetTraceResolver and the InterfaceIdTraceResolver
       (object.cc, lines 71-130, 262-273, 288-295) *)

Record InterfaceIdTraceResolver : Type := mkResolver { m_aggregate : ptr }.

(** GetTraceResolver is virtual; this is Object's own. *)
Definition GetTraceResolver (fuel : nat) (this : ptr) : M InterfaceIdTraceResolver :=
  b <- CheckLoose fuel this ;;
  NS_ASSERT b ;;
  ret (mkResolver this).

(** InterfaceId::LookupByName *)
Definition InterfaceId_LookupByName (name : string) : M N :=
  let uid := LookupByName E name in
  NS_ASSERT (negb (uid =? 0) && (uid <=? 65535)) ;;
  ret uid.

(** element.find ("$") != 0 *)
Definition dollar_pos_nonzero (element : string) : bool :=
  match String.index 0 "$" element with
  | Some O => false
  | _ => true
  end.

(** QueryInterface<Object> is a template of object.h: it hands back the
    object that DoQueryInterface found. *)
Definition ParseForInterface (fuel : nat) (r : InterfaceIdTraceResolver) (path : string)
  : M ptr :=
  let element := GetElement E path in
  if dollar_pos_nonzero element then ret null
  else
    let interfaceName := String.substring 1 (String.length element - 1) element in
    interfaceId <- InterfaceId_LookupByName interfaceName ;;
    DoQueryInterface fuel (m_aggregate r) interfaceId.

(** Connect and Disconnect hand the rest of the path over to the member
    found. Connect makes the resolver of that member first, with Object's
    own GetTraceResolver, and the call of Connect on it is then recorded
    and run; Disconnect calls TraceDisconnect of the member, which is
    recorded and then run from its first assertion. *)
Fixpoint Resolver_Connect (fuel : nat) (r : InterfaceIdTraceResolver) (path : string)
  : M unit :=
  match fuel with
  | O => stop OutOfFuel
  | S fuel' =>
      interface <- ParseForInterface fuel' r path ;;
      if negb (ptr_eqb interface null) then
        r' <- GetTraceResolver fuel' interface ;;
        emit (EvConnect interface (GetSubpath E path)) ;;
        Resolver_Connect fuel' r' (GetSubpath E path)
      else ret tt
  end.

Definition TraceConnect (fuel : nat) (this : ptr) (path : string) : M unit :=
  b <- CheckLoose fuel this ;;
  NS_ASSERT b ;;
  r <- GetTraceResolver fuel this ;;
  Resolver_Connect fuel r path.

Fixpoint Resolver_Disconnect (fuel : nat) (r : InterfaceIdTraceResolver) (path : string)
  : M unit :=
  match fuel with
  | O => stop OutOfFuel
  | S fuel' =>
      interface <- ParseForInterface fuel' r path ;;
      if negb (ptr_eqb interface null) then
        (* interface->TraceDisconnect (GetSubpath (path), cb) *)
        emit (EvDisconnect interface (GetSubpath E path)) ;;
        b <- CheckLoose fuel' interface ;;
        NS_ASSERT b ;;
        r' <- GetTraceResolver fuel' interface ;;
        Resolver_Disconnect fuel' r' (GetSubpath E path)
      else ret tt
  end.

Definition TraceDisconnect (fuel : nat) (this : ptr) (path : string) : M unit :=
  b <- CheckLoose fuel this ;;
  NS_ASSERT b ;;
  r <- GetTraceResolver fuel this ;;
  Resolver_Disconnect fuel r path.

(** ** Object::DoCollectSources and Object::DoTraceAll
       (object.cc, lines 352-413) *)

(** The loop that looks at every m_collecting; [true] stands for the early
    return. *)
Fixpoint collecting_scan (fuel : nat) (this current : ptr) : M bool :=
  match fuel with
  | O => stop OutOfFuel
  | S fuel' =>
      o <- load current ;;
      if m_collecting o then ret true
      else
        let current := m_next o in
        if ptr_eqb current this then ret false
        else collecting_scan fuel' this current
  end.

(** The inner loop of DoCollectSources over the types of one member.
    [resolve] is what current->GetTraceResolver ()->CollectSources does. *)
Fixpoint collect_types (fuel : nat) (resolve : ptr -> string -> M unit)
    (current : ptr) (path : string) (cur : N) : M unit :=
  if negb (cur =? Object_iid E) then
    match fuel with
    | O => stop OutOfFuel
    | S fuel' =>
        let name := LookupByUid E cur in
        let fullpath := String.append (String.append path "/$") name in
        resolve current fullpath ;;
        p <- LookupParent cur ;;
        collect_types fuel' resolve current path p
    end
  else ret tt.

(** The outer loop of DoCollectSources. *)
Fixpoint collect_members (fuel : nat) (resolve : ptr -> string -> M unit)
    (this current : ptr) (path : string) : M unit :=
  if negb (ptr_eqb current this) then
    match fuel with
    | O => stop OutOfFuel
    | S fuel' =>
        NS_ASSERT (negb (ptr_eqb current null)) ;;
        o <- load current ;;
        collect_types fuel' resolve current path (m_iid o) ;;
        o' <- load current ;;
        collect_members fuel' resolve this (m_next o') path
    end
  else ret tt.

(** In current->GetTraceResolver ()->CollectSources (fullpath, ...) the
    resolver is made first, by Object's own GetTraceResolver; the call of
    CollectSources is then recorded and run as that resolver runs it:
    InterfaceIdTraceResolver::CollectSources enters DoCollectSources of its
    aggregate. *)
Fixpoint DoCollectSources (fuel : nat) (this : ptr) (path : string) : M unit :=
  match fuel with
  | O => stop OutOfFuel
  | S fuel' =>
      busy <- collecting_scan fuel' this this ;;
      if busy then ret tt
      else
        update this (set_collecting true) ;;
        t <- load this ;;
        collect_members fuel'
          (fun current fullpath =>
             r <- GetTraceResolver fuel' current ;;
             emit (EvCollectSources current fullpath) ;;
             DoCollectSources fuel' (m_aggregate r) fullpath)
          this (m_next t) path ;;
        update this (set_collecting false)
  end.

(** The loop of DoTraceAll. *)
Fixpoint trace_members (fuel : nat) (resolve : ptr -> M unit)
    (this current : ptr) : M unit :=
  if negb (ptr_eqb current this) then
    match fuel with
    | O => stop OutOfFuel
    | S fuel' =>
        NS_ASSERT (negb (ptr_eqb current null)) ;;
        resolve current ;;
        o' <- load current ;;
        trace_members fuel' resolve this (m_next o')
    end
  else ret tt.

Fixpoint DoTraceAll (fuel : nat) (this : ptr) : M unit :=
  match fuel with
  | O => stop OutOfFuel
  | S fuel' =>
      busy <- collecting_scan fuel' this this ;;
      if busy then ret tt
      else
        update this (set_collecting true) ;;
        t <- load this ;;
        trace_members fuel'
          (fun current =>
             r <- GetTraceResolver fuel' current ;;
             emit (EvTraceAll current) ;;
             DoTraceAll fuel' (m_aggregate r))
          this (m_next t) ;;
        update this (set_collecting false)
  end.

(** ** Rings, liveness and type ancestry *)

(** [walk h from l to]: following m_next from [from] visits exactly the
    objects of [l], in that order, and then arrives at [to]. *)
Fixpoint walk (h : gmap nat Object) (from : ptr) (l : list ptr) (to : ptr) : Prop :=
  match l with
  | [] => from = to
  | x :: l' => from = x /\ exists o, h !! x = Some o /\ walk h (m_next o) l' to
  end.

(** [ring h this l]: [l] lists, from [this] and in m_next order, the
    members of the ring of [this]; every member is a live object and is
    listed once. *)
Definition ring (h : gmap nat Object) (this : ptr) (l : list ptr) : Prop :=
  l <> [] /\ walk h this l this /\ NoDup l /\ null ∉ l.

Definition count_of (h : gmap nat Object) (p : ptr) : N :=
  match h !! p with Some o => m_count o | None => 0 end.

Definition count_sum (h : gmap nat Object) (l : list ptr) : N :=
  foldr (fun p acc => count_of h p + acc) 0 l.

(** What CheckLoose computes for a ring: the 32-bit sum of the counts is
    not zero. *)
Definition live (h : gmap nat Object) (l : list ptr) : Prop :=
  uint32 (count_sum h l) <> 0.

Definition collecting_of (h : gmap nat Object) (p : ptr) : bool :=
  match h !! p with Some o => m_collecting o | None => false end.

(** The path that DoCollectSources hands to the resolver for type [ty]. *)
Definition fullpath_of (path : string) (ty : N) : string :=
  String.append (String.append path "/$") (LookupByUid E ty).

(** The hand-overs of one DoCollectSources walk: for every member after
    the receiver, in ring order, one per type of its chain. *)
Definition collect_events (chain : ptr -> list N) (path : string) (l : list ptr)
  : list event :=
  flat_map (fun m => map (fun ty => EvCollectSources m (fullpath_of path ty)) (chain m))
           (tail l).

(** Two heaps hold objects at the same addresses, with the same m_count,
    m_iid and m_next. *)
Definition same_links (h1 h2 : gmap nat Object) : Prop :=
  forall p,
    match h1 !! p, h2 !! p with
    | Some o1, Some o2 =>
        m_count o1 = m_count o2 /\ m_iid o1 = m_iid o2 /\ m_next o1 = m_next o2
    | None, None => True
    | _, _ => False
    end.

Definition is_disposed (h : gmap nat Object) (m : ptr) : Prop :=
  exists o, h !! m = Some o /\ m_disposed o = true.

Definition not_disposed (h : gmap nat Object) (m : ptr) : Prop :=
  forall o, h !! m = Some o -> m_disposed o = false.

Definition parent_of (child : N) : option N :=
  m_parents (iid_tree E) !! N.to_nat child.

(** [ancestry t l]: [l] is [t] followed by its parents, up to but excluding
    the root Object::iid (). *)
Inductive ancestry : N -> list N -> Prop :=
| ancestry_root : ancestry (Object_iid E) []
| ancestry_step t p l :
    t <> Object_iid E -> parent_of t = Some p -> ancestry p l ->
    ancestry t (t :: l).

(** The type of member [m], or one of its ancestors up to the root, is
    [iid]. *)
Definition is_a (h : gmap nat Object) (m : ptr) (iid : N) : Prop :=
  exists o l, h !! m = Some o /\ ancestry (m_iid o) l /\
              (iid = Object_iid E \/ iid ∈ l).

Definition rooted (h : gmap nat Object) (m : ptr) : Prop :=
  exists o l, h !! m = Some o /\ ancestry (m_iid o) l.

(** The length of the ancestry of the type of [m] is at most [n]. *)
Definition depth_le (h : gmap nat Object) (n : nat) (m : ptr) : Prop :=
  exists o l, h !! m = Some o /\ ancestry (m_iid o) l /\ (length l <= n)%nat.

End ObjectModel.

(** ** MakeInterfaceId and MakeObjectInterfaceId (object.cc, lines 171-187) *)

(** The environment once the parent table has become [t]. *)
Definition with_tree (t : IidTree) (E : Env) : Env :=
  mkEnv t (Object_iid E) (LookupByName E) (LookupByUid E)
        (GetElement E) (GetSubpath E).

Definition uint16 (n : N) : N := n mod 2 ^ 16.

(** [uid] is what UidManager::Allocate (name) returned, a uint32_t. *)
Definition MakeInterfaceId (uid parent : N) (t : IidTree) : outcome IidTree :=
  if uid <=? 65535 then Ret (SetParent (uint16 uid) parent t)
  else Stop AssertFailed.

(** [uid] is what UidManager::Allocate ("Object") returned; the conversion
    to InterfaceId keeps its low 16 bits. *)
Definition MakeObjectInterfaceId (uid : N) (t : IidTree) : IidTree :=
  let iid := uint16 uid in
  SetParent iid iid t.

(** ** The types and objects of the self-test of object.cc *)

(** Object, BaseA, DerivedA, BaseB and DerivedB, registered as
    MakeObjectInterfaceId and MakeInterfaceId do it. *)
Definition test_tree : IidTree :=
  SetParent 5 4 (SetParent 4 1 (SetParent 3 2 (SetParent 2 1
    (SetParent 1 1 (mkIidTree []))))).

Definition test_names : list (string * N) :=
  [("Object"%string, 1); ("BaseA"%string, 2); ("DerivedA"%string, 3);
   ("BaseB"%string, 4); ("DerivedB"%string, 5)].

Definition names_LookupByName (name : string) : N :=
  match List.find (fun e => String.eqb (fst e) name) test_names with
  | Some e => snd e
  | None => 0
  end.

Definition names_LookupByUid (uid : N) : string :=
  match List.find (fun e => snd e =? uid) test_names with
  | Some e => fst e
  | None => EmptyString
  end.

(** Modelled from the spec: TraceResolver::GetElement and
    TraceResolver::GetSubpath (trace-resolver.cc is not among the sources).
    A path is a sequence of elements, each introduced by '/'; GetElement is
    the first element and GetSubpath is what follows it. *)
Definition path_GetElement (path : string) : string :=
  let rest := String.substring 1 (String.length path - 1) path in
  match String.index 0 "/" rest with
  | Some n => String.substring 0 n rest
  | None => rest
  end.

Definition path_GetSubpath (path : string) : string :=
  let rest := String.substring 1 (String.length path - 1) path in
  match String.index 0 "/" rest with
  | Some n => String.substring n (String.length rest - n) rest
  | None => EmptyString
  end.

Definition test_env : Env :=
  mkEnv test_tree 1 names_LookupByName names_LookupByUid
        path_GetElement path_GetSubpath.

(** Object::Object () *)
Definition new_Object (E : Env) (this : ptr) : Object :=
  mkObject 1 (Object_iid E) false false this.

(** CreateObject<T> (): construction followed by SetInterfaceId. *)
Definition CreateObject (E : Env) (this : ptr) (iid : N) : Object :=
  set_iid iid (new_Object E this).

Definition BaseA_iid : N := 2.
Definition DerivedA_iid : N := 3.
Definition BaseB_iid : N := 4.
Definition DerivedB_iid : N := 5.

(** One object of the given type on its own. *)
Definition heap_one (iid : N) : gmap nat Object :=
  <[1%nat := CreateObject test_env 1 iid]> ∅.

(** baseA = CreateObject<BaseA> (); baseB = CreateObject<BaseB> (); *)
Definition heap_two : gmap nat Object :=
  <[1%nat := CreateObject test_env 1 BaseA_iid]>
    (<[2%nat := CreateObject test_env 2 BaseB_iid]> ∅).

(** ... after baseA->AddInterface (baseB) *)
Definition heap_AB : gmap nat Object :=
  <[1%nat := set_next 2 (CreateObject test_env 1 BaseA_iid)]>
    (<[2%nat := set_next 1 (CreateObject test_env 2 BaseB_iid)]> ∅).

(** The ring of baseA and baseB once the reference to baseA is dropped,
    and once both references are dropped. *)
Definition heap_A0B1 : gmap nat Object :=
  <[1%nat := set_count 0 (set_next 2 (CreateObject test_env 1 BaseA_iid))]>
    (<[2%nat := set_next 1 (CreateObject test_env 2 BaseB_iid)]> ∅).

Definition heap_A0B0 : gmap nat Object :=
  <[1%nat := set_count 0 (set_next 2 (CreateObject test_env 1 BaseA_iid))]>
    (<[2%nat := set_count 0 (set_next 1 (CreateObject test_env 2 BaseB_iid))]> ∅).

(** Two objects on their own, the first with no reference left. *)
Definition heap_unreferenced : gmap nat Object :=
  <[1%nat := set_count 0 (CreateObject test_env 1 BaseA_iid)]>
    (<[2%nat := CreateObject test_env 2 BaseB_iid]> ∅).

(** The ring of baseA and baseB while a walk started at baseB is under
    way. *)
Definition heap_AB_collecting : gmap nat Object :=
  <[1%nat := set_next 2 (CreateObject test_env 1 BaseA_iid)]>
    (<[2%nat := set_collecting true (set_next 1 (CreateObject test_env 2 BaseB_iid))]> ∅).

(** The ring of three next to a ring of two: BaseA at 4, which no handle
    refers to, and BaseB at 5. *)
Definition heap_three_and_two : gmap nat Object :=
  <[1%nat := set_next 2 (CreateObject test_env 1 DerivedA_iid)]>
    (<[2%nat := set_next 3 (CreateObject test_env 2 BaseB_iid)]>
       (<[3%nat := set_next 1 (CreateObject test_env 3 DerivedB_iid)]>
          (<[4%nat := set_count 0 (set_next 5 (CreateObject test_env 4 BaseA_iid))]>
             (<[5%nat := set_next 4 (CreateObject test_env 5 BaseB_iid)]> ∅)))).

(** A ring of three whose last member alone is disposed. *)
Definition heap_three_last_disposed : gmap nat Object :=
  <[1%nat := set_next 2 (CreateObject test_env 1 DerivedA_iid)]>
    (<[2%nat := set_next 3 (CreateObject test_env 2 BaseB_iid)]>
       (<[3%nat := set_disposed true
                     (set_next 1 (CreateObject test_env 3 DerivedB_iid))]> ∅)).

(** A ring of three: DerivedA, BaseB, DerivedB. *)
Definition heap_three : gmap nat Object :=
  <[1%nat := set_next 2 (CreateObject test_env 1 DerivedA_iid)]>
    (<[2%nat := set_next 3 (CreateObject test_env 2 BaseB_iid)]>
       (<[3%nat := set_next 1 (CreateObject test_env 3 DerivedB_iid)]> ∅)).

(** The type chains of the members of [heap_three]. *)
Definition test_chain (m : nat) : list N :=
  match m with
  | 1%nat => [DerivedA_iid; BaseA_iid]
  | 2%nat => [BaseB_iid]
  | _ => [DerivedB_iid; BaseB_iid]
  end.

(** ** Attribute accessors (attribute-accessor-helper.h, lines 45-195) *)

(** A checked downcast from [B] to [D] (dynamic_cast<T *>, DynCast<U *>):
    [down] is the cast, which can fail; [put] is the effect on the whole of
    an assignment made through the pointer the cast returned. *)
Class Downcast (B D : Type) : Type := {
  down : B -> option D;
  put : D -> B -> B
}.

(** Writing back through a cast pointer what is already there changes
    nothing. *)
Definition put_same (B D : Type) (c : Downcast B D) : Prop :=
  forall (b : B) (d : D), @down B D c b = Some d -> @put B D c d b = b.

(** What is written through a cast pointer is what the cast then finds. *)
Definition down_after_put (B D : Type) (c : Downcast B D) : Prop :=
  forall (b : B) (d d' : D),
    @down B D c b = Some d -> @down B D c (@put B D c d' b) = Some d'.

(** The value-representation class V: v->Get () and v->Set (x). *)
Class BoxedValue (V R : Type) : Type := {
  value_Get : V -> R;
  value_Set : R -> V -> V
}.

(** A data member U T::*memberVariable. *)
Class Field (T U : Type) : Type := {
  field_get : T -> U;
  field_set : U -> T -> T
}.

Section Accessor.

Context {ObjectBase T Attribute V R : Type}.
Context {object_cast : Downcast ObjectBase T}.
Context {value_cast : Downcast Attribute V}.
Context {boxed : BoxedValue V R}.

(** The classes that DoMakeAccessorHelperOne and DoMakeAccessorHelperTwo
    derive from AccessorHelper<T,V>. The conversions are those the
    assignments and calls of the bodies perform: [to_U] is U (v->Get ()),
    [of_U] brings the member or the result of the getter to the argument of
    v->Set. *)
Inductive AccessorHelper : Type :=
| MemberVariable {U : Type} (memberVariable : Field T U)
    (to_U : R -> U) (of_U : U -> R)
| MemberMethodGetter {U : Type} (getter : T -> U) (of_U : U -> R)
| MemberMethodSetter {U : Type} (setter : U -> T -> T) (to_U : R -> U)
| MemberMethodSetterGetter {U W : Type} (setter : U -> T -> T) (getter : T -> W)
    (to_U : R -> U) (of_W : W -> R).

Definition DoSet (a : AccessorHelper) (object : T) (v : V) : bool * T :=
  match a with
  | MemberVariable memberVariable to_U _ =>
      (true, field_set (to_U (value_Get v)) object)
  | MemberMethodGetter _ _ => (false, object)
  | MemberMethodSetter setter to_U => (true, setter (to_U (value_Get v)) object)
  | MemberMethodSetterGetter setter _ to_U _ =>
      (true, setter (to_U (value_Get v)) object)
  end.

Definition DoGet (a : AccessorHelper) (object : T) (v : V) : bool * V :=
  match a with
  | MemberVariable memberVariable _ of_U =>
      (true, value_Set (of_U (field_get object)) v)
  | MemberMethodGetter getter of_U => (true, value_Set (of_U (getter object)) v)
  | MemberMethodSetter _ _ => (false, v)
  | MemberMethodSetterGetter _ getter _ of_W =>
      (true, value_Set (of_W (getter object)) v)
  end.

(** AccessorHelper::Set; the result is the value returned and the object
    as the call leaves it. *)
Definition AccessorHelper_Set (a : AccessorHelper) (object : ObjectBase) (val : Attribute)
  : bool * ObjectBase :=
  match down val with
  | None => (false, object)
  | Some value =>
      match down object with
      | None => (false, object)
      | Some obj =>
          let '(r, obj') := DoSet a obj value in
          (r, put obj' object)
      end
  end.

(** AccessorHelper::Get; the result is the value returned and the box as
    the call leaves it. *)
Definition AccessorHelper_Get (a : AccessorHelper) (object : ObjectBase) (val : Attribute)
  : bool * Attribute :=
  match down val with
  | None => (false, val)
  | Some value =>
      match down object with
      | None => (false, val)
      | Some obj =>
          let '(r, value') := DoGet a obj value in
          (r, put value' val)
      end
  end.

(** The two overloads of DoMakeAccessorHelperTwo. *)
Definition DoMakeAccessorHelperTwo_setter_getter {U W : Type}
    (setter : U -> T -> T) (getter : T -> W) (to_U : R -> U) (of_W : W -> R)
  : AccessorHelper :=
  MemberMethodSetterGetter setter getter to_U of_W.

Definition DoMakeAccessorHelperTwo_getter_setter {U W : Type}
    (getter : T -> W) (setter : U -> T -> T) (to_U : R -> U) (of_W : W -> R)
  : AccessorHelper :=
  DoMakeAccessorHelperTwo_setter_getter setter getter to_U of_W.

(** Whether the class overrides DoSet, DoGet with a body that does the
    access. *)
Definition has_setter (a : AccessorHelper) : bool :=
  match a with
  | MemberMethodGetter _ _ => false
  | _ => true
  end.

Definition has_getter (a : AccessorHelper) : bool :=
  match a with
  | MemberMethodSetter _ _ => false
  | _ => true
  end.

End Accessor.

(** An object hierarchy and a family of boxed values to try the accessors
    on: a Sample object with a 16-bit member, next to objects of another
    class; integer boxes next to string boxes. *)
Record Sample : Type := mkSample { m_value : N; m_label : string }.

Inductive SomeObject : Type :=
| IsSample (x : Sample)
| IsOther (n : N).

Inductive SomeAttribute : Type :=
| IntegerBox (n : N)
| StringBox (x : string).

#[global] Instance Sample_cast : Downcast SomeObject Sample :=
  {| down o := match o with IsSample x => Some x | IsOther _ => None end;
     put x o := match o with IsSample _ => IsSample x | IsOther n => IsOther n end |}.

#[global] Instance Integer_cast : Downcast SomeAttribute N :=
  {| down a := match a with IntegerBox n => Some n | StringBox _ => None end;
     put n a := match a with IntegerBox _ => IntegerBox n | StringBox x => StringBox x end |}.

#[global] Instance Integer_value : BoxedValue N N :=
  {| value_Get v := v; value_Set r _ := r |}.

#[global] Instance Sample_m_value : Field Sample N :=
  {| field_get x := m_value x;
     field_set u x := mkSample u (m_label x) |}.

(** uint16_t (v->Get ()) *)
Definition to_uint16 (n : N) : N := n mod 2 ^ 16.

(** A setter and a getter of the 16-bit member, as member functions
    void SetValue (uint16_t) and uint16_t GetValue (void) const. *)
Definition SetValue (u : N) (x : Sample) : Sample := mkSample u (m_label x).

Definition GetValue (x : Sample) : N := m_value x.

(** * Properties *)

Ltac mstep :=
  unfold bind, ret, stop, load, update, emit, NS_ASSERT, delete_object; simpl.

Lemma bind_run {A B} (m : M A) (k : A -> M B) s a s' :
  m s = (Ret a, s') -> bind m k s = k a s'.
Proof. unfold bind. by intros ->. Qed.

Lemma load_run p o s : heap s !! p = Some o -> load p s = (Ret o, s).
Proof. unfold load. by intros ->. Qed.

Lemma update_run p f o s :
  heap s !! p = Some o ->
  update p f s = (Ret tt, mkState (<[p := f o]> (heap s)) (trace s)).
Proof. unfold update. by intros ->. Qed.

Lemma assert_run s : NS_ASSERT true s = (Ret tt, s).
Proof. done. Qed.

Lemma ptr_eqb_eq a b : ptr_eqb a b = true <-> a = b.
Proof. apply Nat.eqb_eq. Qed.

Lemma ptr_eqb_refl a : ptr_eqb a a = true.
Proof. apply Nat.eqb_refl. Qed.

Lemma ptr_eqb_neq a b : a <> b -> ptr_eqb a b = false.
Proof. intros H. apply Nat.eqb_neq. exact H. Qed.

Lemma uint32_add_l a b : uint32 (uint32 a + b) = uint32 (a + b).
Proof. unfold uint32. apply N.Div0.add_mod_idemp_l. Qed.

Section Rings.

Context (E : Env).

Lemma walk_head h from x l to : walk h from (x :: l) to -> from = x.
Proof. simpl. tauto. Qed.

(** A walk only reads the objects it lists. *)
Lemma walk_agree h h' l : forall from to,
  (forall x, x ∈ l -> h' !! x = h !! x \/
     exists o o', h !! x = Some o /\ h' !! x = Some o' /\ m_next o' = m_next o) ->
  walk h from l to -> walk h' from l to.
Proof.
  induction l as [|x l IH]; intros from to Hag; simpl; [done|].
  intros [-> (o & Ho & Hp)].
  split; [done|].
  destruct (Hag x) as [Heq | (o1 & o' & Ho1 & Ho' & Hn)]; [left|..].
  - exists o. rewrite Heq. split; [done|]. apply IH; [|done].
    intros y Hy. apply Hag. by right.
  - rewrite Ho in Ho1. injection Ho1 as <-.
    exists o'. split; [done|]. rewrite Hn. apply IH; [|done].
    intros y Hy. apply Hag. by right.
Qed.

Lemma walk_app h l1 : forall l2 from mid to,
  walk h from l1 mid -> walk h mid l2 to -> walk h from (l1 ++ l2) to.
Proof.
  induction l1 as [|x l1 IH]; intros l2 from mid to; simpl.
  - by intros ->.
  - intros [-> (o & Ho & Hp)] H2. split; [done|]. exists o. split; [done|].
    by eapply IH.
Qed.

Lemma walk_split h l1 : forall l2 from to,
  walk h from (l1 ++ l2) to ->
  exists mid, walk h from l1 mid /\ walk h mid l2 to.
Proof.
  induction l1 as [|x l1 IH]; intros l2 from to; simpl.
  - intros H. by exists from.
  - intros [-> (o & Ho & Hp)]. destruct (IH _ _ _ Hp) as (mid & H1 & H2).
    exists mid. split; [|done]. split; [done|]. by exists o.
Qed.

Lemma walk_lookup h l from to x :
  walk h from l to -> x ∈ l -> is_Some (h !! x).
Proof.
  revert from. induction l as [|y l IH]; intros from; simpl.
  - intros _ Hx. by apply elem_of_nil in Hx.
  - intros [-> (o & Ho & Hp)] Hx. apply elem_of_cons in Hx as [->|Hx]; [by exists o|].
    by eapply IH.
Qed.

(** ** CheckLoose *)

Lemma CheckLoose_loop_spec this s l : forall cur acc fuel,
  walk (heap s) cur l this -> l <> [] -> this ∉ tail l ->
  (length l <= fuel)%nat ->
  CheckLoose_loop fuel this cur acc s
  = (Ret (uint32 (acc + count_sum (heap s) l)), s).
Proof.
  induction l as [|x l IH]; intros cur acc fuel Hp Hne Hnotin Hfuel; [done|].
  destruct fuel as [|fuel]; [simpl in Hfuel; lia|].
  destruct Hp as [-> (o & Ho & Hp)].
  simpl. mstep. rewrite Ho. simpl.
  unfold count_of at 1. rewrite Ho.
  destruct l as [|y l'].
  - simpl in Hp. rewrite Hp, ptr_eqb_refl. simpl.
    rewrite N.add_0_r. done.
  - pose proof (walk_head _ _ _ _ _ Hp) as Hy.
    rewrite ptr_eqb_neq.
    2:{ intros Heq. apply Hnotin. simpl. rewrite <- Heq, Hy. by left. }
    rewrite IH; [| done | done | | simpl in *; lia].
    2:{ intros Hin. apply Hnotin. simpl. simpl in Hin. by right. }
    rewrite uint32_add_l. do 3 f_equal. simpl. lia.
Qed.

Lemma ring_tail_notin h this l : ring h this l -> this ∉ tail l.
Proof.
  intros (Hne & Hp & Hnd & _). destruct l as [|x l]; [done|].
  apply walk_head in Hp as <-. simpl. by apply NoDup_cons in Hnd as [? _].
Qed.

Lemma CheckLoose_spec this s l fuel :
  ring (heap s) this l -> (length l <= fuel)%nat ->
  CheckLoose fuel this s = (Ret (0 <? uint32 (count_sum (heap s) l)), s).
Proof.
  intros Hr Hfuel. unfold CheckLoose. mstep.
  rewrite (CheckLoose_loop_spec this s l); try done.
  - apply Hr.
  - apply Hr.
  - by eapply ring_tail_notin.
Qed.

(** Below 2^32 the sum does not wrap: a ring is live when a count is
    positive. *)
Lemma live_no_wrap h l :
  count_sum h l < 2 ^ 32 -> (live h l <-> 0 < count_sum h l).
Proof.
  intros Hlt. unfold live, uint32. rewrite N.mod_small by done. lia.
Qed.

Lemma CheckLoose_live this s l fuel :
  ring (heap s) this l -> live (heap s) l -> (length l <= fuel)%nat ->
  CheckLoose fuel this s = (Ret true, s).
Proof.
  intros Hr Hl Hf. rewrite (CheckLoose_spec this s l); try done.
  do 2 f_equal. apply N.ltb_lt. unfold live in Hl. lia.
Qed.

(** ** Type ancestry and the inner loop of DoQueryInterface *)

Lemma ancestry_unique t l1 : ancestry E t l1 -> forall l2, ancestry E t l2 -> l1 = l2.
Proof.
  induction 1 as [|t p l Hne Hp Ha IH]; intros l2 H2; inversion H2; subst; try done.
  rewrite Hp in *. simplify_eq. f_equal. by apply IH.
Qed.

Lemma LookupParent_spec t p s :
  parent_of E t = Some p -> LookupParent E t s = (Ret p, s).
Proof.
  unfold parent_of, LookupParent. intros Hp. mstep.
  pose proof (lookup_lt_Some _ _ _ Hp) as Hlt.
  replace (t <? N.of_nat (length (m_parents (iid_tree E)))) with true
    by (symmetry; apply N.ltb_lt; lia).
  by rewrite Hp.
Qed.

Lemma walk_parents_spec iid s t l :
  ancestry E t l -> forall fuel, (length l <= fuel)%nat ->
  walk_parents E fuel iid t s
  = (Ret (if decide (iid ∈ l) then iid else Object_iid E), s).
Proof.
  induction 1 as [|t p l Hne Hp Ha IH]; intros fuel Hfuel.
  - rewrite decide_False by apply not_elem_of_nil.
    destruct fuel; simpl; by rewrite N.eqb_refl, andb_false_r.
  - destruct (N.eqb_spec t iid) as [->|Hti].
    + assert (Hc : walk_parents E fuel iid iid s = (Ret iid, s)).
      { destruct fuel; simpl; by rewrite N.eqb_refl. }
      rewrite Hc. rewrite decide_True; [done | by left].
    + destruct fuel as [|fuel]; [simpl in Hfuel; lia|].
      simpl. destruct (N.eqb_spec t iid) as [|_]; [done|].
      destruct (N.eqb_spec t (Object_iid E)) as [|_]; [done|].
      simpl. unfold bind at 1. rewrite (LookupParent_spec t p s Hp).
      rewrite IH by (simpl in Hfuel; lia).
      do 2 f_equal. repeat case_decide; try done.
      * exfalso. set_solver.
      * exfalso. set_solver.
Qed.

(** For a member whose type is rooted, [is_a] is decided by the ancestry. *)
Lemma is_a_iff h m o l iid :
  h !! m = Some o -> ancestry E (m_iid o) l ->
  is_a E h m iid <-> (iid = Object_iid E \/ iid ∈ l).
Proof.
  intros Ho Ha. split.
  - intros (o' & l' & Ho' & Ha' & Hin). rewrite Ho in Ho'. simplify_eq.
    by rewrite (ancestry_unique _ _ Ha _ Ha').
  - intros Hin. by exists o, l.
Qed.

Lemma walk_parents_match iid s h m o l fuel :
  h !! m = Some o -> ancestry E (m_iid o) l -> (length l <= fuel)%nat ->
  exists cur, walk_parents E fuel iid (m_iid o) s = (Ret cur, s) /\
              ((cur =? iid) = true <-> is_a E h m iid).
Proof.
  intros Ho Ha Hfuel. eexists. split; [by apply walk_parents_spec|].
  rewrite (is_a_iff h m o l iid Ho Ha), N.eqb_eq.
  case_decide; naive_solver.
Qed.

(** ** The ring walk of DoQueryInterface *)

Lemma DoQueryInterface_loop_spec this iid s d l : forall cur fuel,
  walk (heap s) cur l this -> l <> [] -> this ∉ tail l -> null ∉ l ->
  (forall x, x ∈ l -> depth_le E (heap s) d x) ->
  (length l + d <= fuel)%nat ->
  exists r, DoQueryInterface_loop E fuel this cur iid s = (Ret r, s) /\
    ((r = null /\ forall x, x ∈ l -> ~ is_a E (heap s) x iid) \/
     (exists pre post, l = pre ++ r :: post /\ is_a E (heap s) r iid /\
        forall x, x ∈ pre -> ~ is_a E (heap s) x iid)).
Proof.
  induction l as [|x l IH]; intros cur fuel Hp Hne Hnotin Hnull Hd Hfuel; [done|].
  destruct fuel as [|fuel]; [simpl in Hfuel; lia|].
  destruct Hp as [-> (o & Ho & Hp)].
  destruct (Hd x) as (o' & la & Ho' & Ha & Hlen); [by left|].
  rewrite Ho in Ho'. injection Ho' as <-.
  destruct (walk_parents_match iid s (heap s) x o la fuel Ho Ha) as (cur & Hw & Hcur);
    [simpl in Hfuel; lia|].
  simpl. mstep.
  rewrite ptr_eqb_neq by (intros ->; apply Hnull; by left).
  simpl. rewrite Ho, Hw.
  destruct (cur =? iid) eqn:Hc.
  - exists x. split; [done|]. right. exists [], l. split; [done|].
    split; [by apply Hcur|]. intros y Hy. by apply elem_of_nil in Hy.
  - assert (Hx : ~ is_a E (heap s) x iid) by (rewrite <- Hcur; congruence).
    destruct l as [|y l'].
    + simpl in Hp. rewrite Hp, ptr_eqb_refl. exists null. split; [done|].
      left. split; [done|]. intros z Hz. apply list_elem_of_singleton in Hz as ->. done.
    + pose proof (walk_head _ _ _ _ _ Hp) as Hy.
      rewrite ptr_eqb_neq.
      2:{ intros Heq. apply Hnotin. simpl. rewrite <- Heq, Hy. by left. }
      destruct (IH (m_next o) fuel Hp) as (r & Hr & Hres); try done.
      * intros Hin. apply Hnotin. simpl. simpl in Hin. by right.
      * intros Hin. apply Hnull. by right.
      * intros z Hz. apply Hd. by right.
      * simpl in *; lia.
      * exists r. split; [done|].
        destruct Hres as [[-> Hall] | (pre & post & Hl & Hra & Hpre)].
        -- left. split; [done|]. intros z Hz.
           apply elem_of_cons in Hz as [->|Hz]; [done | by apply Hall].
        -- right. exists (x :: pre), post. split; [by rewrite Hl|].
           split; [done|]. intros z Hz.
           apply elem_of_cons in Hz as [->|Hz]; [done | by apply Hpre].
Qed.

Lemma DoQueryInterface_run this iid s l fuel r :
  ring (heap s) this l -> live (heap s) l -> (length l <= fuel)%nat ->
  DoQueryInterface_loop E fuel this this iid s = (Ret r, s) ->
  DoQueryInterface E fuel this iid s = (Ret r, s).
Proof.
  intros Hr Hl Hfuel Hrun. unfold DoQueryInterface.
  rewrite (bind_run _ _ _ _ _ (CheckLoose_live this s l fuel Hr Hl Hfuel)).
  by rewrite (bind_run _ _ _ _ _ (assert_run s)).
Qed.

Lemma DoQueryInterface_no_match this iid s d l fuel :
  ring (heap s) this l -> live (heap s) l ->
  (forall m, m ∈ l -> depth_le E (heap s) d m) ->
  (forall m, m ∈ l -> ~ is_a E (heap s) m iid) ->
  (length l + d <= fuel)%nat ->
  DoQueryInterface E fuel this iid s = (Ret null, s).
Proof.
  intros Hr Hl Hd Hnone Hfuel. pose proof Hr as (Hne & Hp & Hnd & Hnull).
  destruct (DoQueryInterface_loop_spec this iid s d l this fuel)
    as (r & Hrun & Hres); try done.
  { by eapply ring_tail_notin. }
  apply (DoQueryInterface_run this iid s l fuel); try done; [lia|].
  destruct Hres as [[-> _] | (pre & post & Hlist & Hra & _)]; [done|].
  destruct (Hnone r); [|done]. rewrite Hlist. set_solver.
Qed.

(** C3. On a live ring whose members have rooted types, DoQueryInterface
    returns the first member, in ring order from the receiver, whose type
    or one of its ancestors up to the root is the requested identifier; it
    returns null exactly when no member has it; so a query for the type of
    any member, or for an ancestor of it, succeeds from any member. *)
Theorem DoQueryInterface_first_match this iid s d l fuel :
  ring (heap s) this l -> live (heap s) l ->
  (forall m, m ∈ l -> depth_le E (heap s) d m) ->
  (length l + d <= fuel)%nat ->
  exists r, DoQueryInterface E fuel this iid s = (Ret r, s) /\
    (r = null <-> forall m, m ∈ l -> ~ is_a E (heap s) m iid) /\
    (r <> null ->
       exists pre post, l = pre ++ r :: post /\ is_a E (heap s) r iid /\
         forall x, x ∈ pre -> ~ is_a E (heap s) x iid) /\
    (forall m, m ∈ l -> is_a E (heap s) m iid ->
       r ∈ l /\ is_a E (heap s) r iid).
Proof.
  intros Hr Hl Hd Hfuel.
  pose proof Hr as (Hne & Hp & Hnd & Hnull).
  destruct (DoQueryInterface_loop_spec this iid s d l this fuel)
    as (r & Hrun & Hres); try done.
  { by eapply ring_tail_notin. }
  exists r. split.
  { unfold DoQueryInterface. unfold bind at 1.
    rewrite (CheckLoose_live this s l) by (try done; lia).
    unfold bind at 1. simpl. exact Hrun. }
  destruct Hres as [[-> Hall] | (pre & post & Hlist & Hra & Hpre)].
  - split; [done|]. split; [done|]. intros m Hm Hma. by destruct (Hall m).
  - assert (Hin : r ∈ l) by (rewrite Hlist; set_solver).
    assert (Hrn : r <> null) by (intros ->; done).
    split; [|split].
    + split; [done|]. intros Hall. by destruct (Hall r).
    + intros _. by exists pre, post.
    + done.
Qed.

(** C10. On a live ring, DoQueryInterface with the root identifier
    Object::iid () returns the receiver itself. *)
Theorem DoQueryInterface_root_is_receiver this s d l fuel :
  ring (heap s) this l -> live (heap s) l ->
  depth_le E (heap s) d this ->
  (length l <= fuel)%nat -> (d < fuel)%nat ->
  DoQueryInterface E fuel this (Object_iid E) s = (Ret this, s).
Proof.
  intros Hr Hl (o & la & Ho & Ha & Hlen) Hfuel Hd.
  unfold DoQueryInterface. unfold bind at 1.
  rewrite (CheckLoose_live this s l) by done.
  unfold bind at 1. simpl.
  destruct fuel as [|fuel]; [lia|].
  simpl. mstep.
  rewrite ptr_eqb_neq.
  2:{ intros ->. destruct Hr as (Hne & Hp & _ & Hnull).
      destruct l; [done|]. apply walk_head in Hp as <-. apply Hnull. by left. }
  simpl. rewrite Ho.
  rewrite (walk_parents_spec (Object_iid E) s (m_iid o) la Ha) by lia.
  case_decide; by rewrite N.eqb_refl.
Qed.

(** ** Dispose *)

Lemma Dispose_loop_spec this l : forall cur s fuel,
  walk (heap s) cur l this -> l <> [] -> this ∉ tail l -> null ∉ l -> NoDup l ->
  (forall m, m ∈ l -> not_disposed (heap s) m) ->
  (length l <= fuel)%nat ->
  exists s', Dispose_loop fuel this cur s = (Ret tt, s') /\
    trace s' = trace s ++ map EvDoDispose l /\
    (forall m, m ∈ l -> exists o, heap s !! m = Some o /\
                                  heap s' !! m = Some (set_disposed true o)) /\
    (forall p, p ∉ l -> heap s' !! p = heap s !! p).
Proof.
  induction l as [|x l IH]; intros cur s fuel Hp Hne Hnotin Hnull Hnd Hnot Hfuel; [done|].
  destruct fuel as [|fuel]; [simpl in Hfuel; lia|].
  destruct Hp as [-> (o & Ho & Hp)].
  apply NoDup_cons in Hnd as [Hxl Hnd].
  assert (Hdx : m_disposed o = false) by (apply (Hnot x); [by left | done]).
  simpl. unfold DoDispose. mstep.
  rewrite ptr_eqb_neq by (intros ->; apply Hnull; by left).
  simpl. rewrite Ho, Hdx. simpl. rewrite Ho, Hdx. simpl. rewrite Ho. simpl.
  rewrite lookup_insert_eq. simpl.
  set (s1 := mkState (<[x:=set_disposed true o]> (heap s)) (trace s ++ [EvDoDispose x])).
  destruct l as [|y l'].
  - simpl in Hp. rewrite Hp, ptr_eqb_refl. exists s1. split; [done|].
    split; [done|]. split.
    + intros m Hm. apply list_elem_of_singleton in Hm as ->. exists o.
      split; [done|]. simpl. by rewrite lookup_insert_eq.
    + intros p Hp'. simpl. rewrite lookup_insert_ne; [done|]. set_solver.
  - pose proof (walk_head _ _ _ _ _ Hp) as Hy.
    rewrite ptr_eqb_neq.
    2:{ intros Heq. apply Hnotin. simpl. rewrite <- Heq, Hy. by left. }
    assert (Hframe : forall z, z ∈ y :: l' -> heap s1 !! z = heap s !! z).
    { intros z Hz. simpl. rewrite lookup_insert_ne; [done|]. intros ->. done. }
    destruct (IH (m_next o) s1 fuel) as (s' & Hrun & Htr & Hin & Hout); try done.
    + eapply walk_agree; [|exact Hp]. intros z Hz. left. by apply Hframe.
    + intros Hin. apply Hnotin. simpl. simpl in Hin. by right.
    + intros Hin. apply Hnull. by right.
    + intros m Hm o' Ho'. rewrite (Hframe m Hm) in Ho'. apply (Hnot m); [by right | done].
    + simpl in *; lia.
    + exists s'. split; [done|]. split; [|split].
      * rewrite Htr. simpl. by rewrite <- app_assoc.
      * intros m Hm. apply elem_of_cons in Hm as [->|Hm].
        -- exists o. split; [done|]. rewrite (Hout x Hxl). simpl.
           by rewrite lookup_insert_eq.
        -- destruct (Hin m Hm) as (om & Hom & Hom'). exists om.
           split; [|done]. by rewrite <- (Hframe m Hm).
      * intros p Hp'. rewrite Hout by set_solver. simpl.
        rewrite lookup_insert_ne; [done|]. set_solver.
Qed.

Lemma Dispose_loop_trap this l : forall cur s fuel,
  walk (heap s) cur l this -> this ∉ tail l -> null ∉ l -> NoDup l ->
  (exists m, m ∈ l /\ is_disposed (heap s) m) ->
  (length l <= fuel)%nat ->
  exists s', Dispose_loop fuel this cur s = (Stop AssertFailed, s').
Proof.
  induction l as [|x l IH]; intros cur s fuel Hp Hnotin Hnull Hnd (m & Hm & Hdm) Hfuel.
  { by apply elem_of_nil in Hm. }
  destruct fuel as [|fuel]; [simpl in Hfuel; lia|].
  destruct Hp as [-> (o & Ho & Hp)].
  apply NoDup_cons in Hnd as [Hxl Hnd].
  simpl. unfold DoDispose. mstep.
  rewrite ptr_eqb_neq by (intros ->; apply Hnull; by left).
  simpl. rewrite Ho.
  destruct (m_disposed o) eqn:Hdx; simpl; [by eexists|].
  rewrite Ho, Hdx. simpl. rewrite Ho. simpl. rewrite lookup_insert_eq. simpl.
  apply elem_of_cons in Hm as [->|Hm].
  { destruct Hdm as (o' & Ho' & Hd'). rewrite Ho in Ho'. simplify_eq. congruence. }
  set (s1 := mkState (<[x:=set_disposed true o]> (heap s)) (trace s ++ [EvDoDispose x])).
  assert (Hframe : forall z, z ∈ l -> heap s1 !! z = heap s !! z).
  { intros z Hz. simpl. rewrite lookup_insert_ne; [done|]. intros ->. done. }
  destruct l as [|y l']; [by apply elem_of_nil in Hm|].
  pose proof (walk_head _ _ _ _ _ Hp) as Hy.
  rewrite ptr_eqb_neq.
  2:{ intros Heq. apply Hnotin. simpl. rewrite <- Heq, Hy. by left. }
  apply (IH (m_next o) s1 fuel); try done.
  - eapply walk_agree; [|exact Hp]. intros z Hz. left. by apply Hframe.
  - intros Hin. apply Hnotin. simpl. simpl in Hin. by right.
  - intros Hin. apply Hnull. by right.
  - exists m. split; [done|]. destruct Hdm as (o' & Ho' & Hd'). exists o'.
    split; [|done]. by rewrite (Hframe m Hm).
  - simpl in *; lia.
Qed.

(** Disposal of a receiver that is already disposed stops at once: no hook
    runs and nothing changes. *)
Lemma Dispose_again this s fuel :
  this <> null -> is_disposed (heap s) this -> (1 <= fuel)%nat ->
  Dispose fuel this s = (Stop AssertFailed, s).
Proof.
  intros Hn (o & Ho & Hd) Hfuel. destruct fuel as [|fuel]; [lia|].
  unfold Dispose. simpl. mstep. rewrite ptr_eqb_neq by done. simpl.
  by rewrite Ho, Hd.
Qed.

(** C4. On a ring with no disposed member, Dispose called on any member
    runs the teardown hook of every member once and marks every member
    disposed; a further Dispose on any member then stops on the assertion
    without running a hook; and Dispose stops on the assertion whenever
    some member of the ring is already disposed. *)
Theorem Dispose_ring_once this s l fuel :
  ring (heap s) this l -> (length l <= fuel)%nat ->
  ((forall m, m ∈ l -> not_disposed (heap s) m) ->
     exists s', Dispose fuel this s = (Ret tt, s') /\
       trace s' = trace s ++ map EvDoDispose l /\
       (forall m, m ∈ l -> exists o, heap s !! m = Some o /\
                                     heap s' !! m = Some (set_disposed true o)) /\
       (forall p, p ∉ l -> heap s' !! p = heap s !! p) /\
       (forall m, m ∈ l -> Dispose fuel m s' = (Stop AssertFailed, s'))) /\
  ((exists m, m ∈ l /\ is_disposed (heap s) m) ->
     exists s', Dispose fuel this s = (Stop AssertFailed, s')).
Proof.
  intros Hr Hfuel. pose proof Hr as (Hne & Hp & Hnd & Hnull).
  pose proof (ring_tail_notin _ _ _ Hr) as Hnotin.
  split.
  - intros Hnot.
    destruct (Dispose_loop_spec this l this s fuel) as (s' & Hrun & Htr & Hin & Hout);
      try done.
    exists s'. repeat (split; [done|]).
    intros m Hm. apply Dispose_again.
    + intros ->. done.
    + destruct (Hin m Hm) as (o & _ & Ho'). by exists (set_disposed true o).
    + destruct l; [done | simpl in Hfuel; lia].
  - intros Hex. by apply (Dispose_loop_trap this l this s fuel).
Qed.

(** ** MaybeDelete *)

Lemma MaybeDelete_scan_spec this s l : forall cur fuel,
  walk (heap s) cur l this -> l <> [] -> this ∉ tail l -> null ∉ l ->
  (length l <= fuel)%nat ->
  MaybeDelete_scan fuel this cur s
  = (Ret (existsb (fun m => negb (count_of (heap s) m =? 0)) l), s).
Proof.
  induction l as [|x l IH]; intros cur fuel Hp Hne Hnotin Hnull Hfuel; [done|].
  destruct fuel as [|fuel]; [simpl in Hfuel; lia|].
  destruct Hp as [-> (o & Ho & Hp)].
  simpl. mstep.
  rewrite ptr_eqb_neq by (intros ->; apply Hnull; by left).
  simpl. rewrite Ho. unfold count_of at 1. rewrite Ho.
  destruct (m_count o =? 0); simpl; [|done].
  destruct l as [|y l'].
  - simpl in Hp. by rewrite Hp, ptr_eqb_refl.
  - pose proof (walk_head _ _ _ _ _ Hp) as Hy.
    rewrite ptr_eqb_neq.
    2:{ intros Heq. apply Hnotin. simpl. rewrite <- Heq, Hy. by left. }
    apply IH; try done.
    + intros Hin. apply Hnotin. simpl. simpl in Hin. by right.
    + intros Hin. apply Hnull. by right.
    + simpl in *; lia.
Qed.

Lemma MaybeDelete_release_spec end_ l : forall cur s fuel,
  walk (heap s) cur l end_ -> l <> [] -> end_ ∉ tail l -> null ∉ l -> NoDup l ->
  (length l <= fuel)%nat ->
  exists s', MaybeDelete_release fuel end_ cur s = (Ret tt, s') /\
    trace s' = trace s ++ map EvDelete l /\
    (forall m, m ∈ l -> heap s' !! m = None) /\
    (forall p, p ∉ l -> heap s' !! p = heap s !! p).
Proof.
  induction l as [|x l IH]; intros cur s fuel Hp Hne Hnotin Hnull Hnd Hfuel; [done|].
  destruct fuel as [|fuel]; [simpl in Hfuel; lia|].
  destruct Hp as [-> (o & Ho & Hp)].
  apply NoDup_cons in Hnd as [Hxl Hnd].
  simpl. mstep.
  rewrite ptr_eqb_neq by (intros ->; apply Hnull; by left).
  simpl. rewrite Ho. simpl. rewrite Ho. simpl.
  set (s1 := mkState (delete x (heap s)) (trace s ++ [EvDelete x])).
  destruct l as [|y l'].
  - simpl in Hp. rewrite Hp, ptr_eqb_refl. exists s1. split; [done|].
    split; [done|]. split.
    + intros m Hm. apply list_elem_of_singleton in Hm as ->. simpl.
      by rewrite lookup_delete_eq.
    + intros p Hp'. simpl. rewrite lookup_delete_ne; [done|]. set_solver.
  - pose proof (walk_head _ _ _ _ _ Hp) as Hy.
    rewrite ptr_eqb_neq.
    2:{ intros Heq. apply Hnotin. simpl. rewrite <- Heq, Hy. by left. }
    assert (Hframe : forall z, z ∈ y :: l' -> heap s1 !! z = heap s !! z).
    { intros z Hz. simpl. rewrite lookup_delete_ne; [done|]. intros ->. done. }
    destruct (IH (m_next o) s1 fuel) as (s' & Hrun & Htr & Hin & Hout); try done.
    + eapply walk_agree; [|exact Hp]. intros z Hz. left. by apply Hframe.
    + intros Hin. apply Hnotin. simpl. simpl in Hin. by right.
    + intros Hin. apply Hnull. by right.
    + simpl in *; lia.
    + exists s'. split; [done|]. split; [|split].
      * rewrite Htr. simpl. by rewrite <- app_assoc.
      * intros m Hm. apply elem_of_cons in Hm as [->|Hm]; [|by apply Hin].
        rewrite (Hout x Hxl). simpl. by rewrite lookup_delete_eq.
      * intros p Hp'. rewrite Hout by set_solver. simpl.
        rewrite lookup_delete_ne; [done|]. set_solver.
Qed.

Lemma MaybeDelete_zero_run this s l fuel :
  ring (heap s) this l -> (length l <= fuel)%nat ->
  (forall m, m ∈ l -> count_of (heap s) m = 0) ->
  exists s', MaybeDelete fuel this s = (Ret tt, s') /\
    trace s' = trace s ++ map EvDelete l /\
    (forall m, m ∈ l -> heap s' !! m = None) /\
    (forall p, p ∉ l -> heap s' !! p = heap s !! p).
Proof.
  intros Hr Hfuel Hzero. pose proof Hr as (Hne & Hp & Hnd & Hnull).
  pose proof (ring_tail_notin _ _ _ Hr) as Hnotin.
  pose proof (MaybeDelete_scan_spec this s l this fuel Hp Hne Hnotin Hnull Hfuel) as Hscan.
  destruct (MaybeDelete_release_spec this l this s fuel) as (s' & Hrun & Hrest);
    try done.
  exists s'. split; [|done].
  unfold MaybeDelete. unfold bind. rewrite Hscan.
  replace (existsb _ l) with false; [done|].
  symmetry. apply not_true_is_false. intros Hex.
  apply existsb_exists in Hex as (m & Hm & Hc).
  apply list_elem_of_In in Hm. rewrite (Hzero m Hm) in Hc. done.
Qed.

Lemma MaybeDelete_nonzero_run this s l m fuel :
  ring (heap s) this l -> (length l <= fuel)%nat ->
  m ∈ l -> count_of (heap s) m <> 0 ->
  MaybeDelete fuel this s = (Ret tt, s).
Proof.
  intros Hr Hfuel Hm Hc. pose proof Hr as (Hne & Hp & Hnd & Hnull).
  pose proof (ring_tail_notin _ _ _ Hr) as Hnotin.
  unfold MaybeDelete, bind.
  rewrite (MaybeDelete_scan_spec this s l this fuel Hp Hne Hnotin Hnull Hfuel).
  replace (existsb _ l) with true; [done|].
  symmetry. apply existsb_exists. exists m. split; [by apply list_elem_of_In|].
  apply negb_true_iff. by apply N.eqb_neq.
Qed.

(** C1. MaybeDelete called on any member of a ring destroys every member,
    each once, when every count of the ring is zero; when some count is
    not zero it destroys nothing and changes nothing. *)
Theorem MaybeDelete_all_or_nothing this s l fuel :
  ring (heap s) this l -> (length l <= fuel)%nat ->
  ((forall m, m ∈ l -> count_of (heap s) m = 0) ->
     exists s', MaybeDelete fuel this s = (Ret tt, s') /\
       trace s' = trace s ++ map EvDelete l /\
       (forall m, m ∈ l -> heap s' !! m = None) /\
       (forall p, p ∉ l -> heap s' !! p = heap s !! p)) /\
  ((exists m, m ∈ l /\ count_of (heap s) m <> 0) ->
     MaybeDelete fuel this s = (Ret tt, s)).
Proof.
  intros Hr Hfuel. pose proof Hr as (Hne & Hp & Hnd & Hnull).
  pose proof (ring_tail_notin _ _ _ Hr) as Hnotin.
  pose proof (MaybeDelete_scan_spec this s l this fuel Hp Hne Hnotin Hnull Hfuel) as Hscan.
  split.
  - intros Hzero.
    destruct (MaybeDelete_release_spec this l this s fuel) as (s' & Hrun & Hrest);
      try done.
    exists s'. split; [|done].
    unfold MaybeDelete. unfold bind. rewrite Hscan.
    replace (existsb _ l) with false; [done|].
    symmetry. apply not_true_is_false. intros Hex.
    apply existsb_exists in Hex as (m & Hm & Hc).
    apply list_elem_of_In in Hm. rewrite (Hzero m Hm) in Hc. done.
  - intros (m & Hm & Hc).
    unfold MaybeDelete. unfold bind. rewrite Hscan.
    replace (existsb _ l) with true; [done|].
    symmetry. apply existsb_exists. exists m. split; [by apply list_elem_of_In|].
    apply negb_true_iff. by apply N.eqb_neq.
Qed.

(** ** AddInterface *)

Lemma count_sum_app h l1 l2 :
  count_sum h (l1 ++ l2) = count_sum h l1 + count_sum h l2.
Proof.
  induction l1 as [|x l1 IH]; simpl; [done|]. rewrite IH. lia.
Qed.

Lemma count_sum_agree h h' l :
  (forall p, count_of h' p = count_of h p) -> count_sum h' l = count_sum h l.
Proof.
  intros Hc. induction l as [|x l IH]; simpl; [done|]. by rewrite IH, Hc.
Qed.

(** The heap that the two assignments of AddInterface leave. *)
Lemma splice_rings h this other t ot la lb :
  ring h this (this :: la) -> ring h other (other :: lb) ->
  (forall x, x ∈ this :: la -> x ∉ other :: lb) ->
  h !! this = Some t -> h !! other = Some ot ->
  let h' := <[other := set_next (m_next t) ot]>
              (<[this := set_next (m_next ot) t]> h) in
  ring h' this (this :: lb ++ other :: la) /\
  ring h' other (other :: la ++ this :: lb) /\
  (forall p, count_of h' p = count_of h p).
Proof.
  intros (_ & Hpa & Hnda & Hna) (_ & Hpb & Hndb & Hnb) Hdis Ht Hot h'.
  destruct Hpa as [_ (t' & Ht' & Hpa)]. rewrite Ht in Ht'. injection Ht' as <-.
  destruct Hpb as [_ (ot' & Hot' & Hpb)]. rewrite Hot in Hot'. injection Hot' as <-.
  apply NoDup_cons in Hnda as [Hta Hnda]. apply NoDup_cons in Hndb as [Hob Hndb].
  assert (Hneq : this <> other) by (intros ->; apply (Hdis other); by left).
  assert (Hthis : h' !! this = Some (set_next (m_next ot) t)).
  { unfold h'. rewrite lookup_insert_ne by done. by rewrite lookup_insert_eq. }
  assert (Hother : h' !! other = Some (set_next (m_next t) ot)).
  { unfold h'. by rewrite lookup_insert_eq. }
  assert (Hframe : forall z, z <> this -> z <> other -> h' !! z = h !! z).
  { intros z H1 H2. unfold h'. by rewrite !lookup_insert_ne. }
  assert (Hpa' : walk h' (m_next t) la this).
  { eapply walk_agree; [|exact Hpa]. intros z Hz. left. apply Hframe.
    - intros ->. done.
    - intros ->. apply (Hdis other); [by right | by left]. }
  assert (Hpb' : walk h' (m_next ot) lb other).
  { eapply walk_agree; [|exact Hpb]. intros z Hz. left. apply Hframe.
    - intros ->. apply (Hdis this); [by left | by right].
    - intros ->. done. }
  assert (Hdis' : forall x, x ∈ la -> x ∉ lb).
  { intros x Hx Hx'. apply (Hdis x); by right. }
  split; [|split].
  - split; [done|]. split; [|split].
    + split; [done|]. eexists. split; [exact Hthis|]. simpl.
      eapply walk_app; [exact Hpb'|]. split; [done|]. eexists. split; [exact Hother|].
      exact Hpa'.
    + apply NoDup_cons. split.
      * intros Hin. apply elem_of_app in Hin as [Hin|Hin].
        -- apply (Hdis this); [by left | by right].
        -- apply elem_of_cons in Hin as [Hin|Hin]; done.
      * apply NoDup_app. split; [done|]. split.
        -- intros x Hx Hx'. apply elem_of_cons in Hx' as [->|Hx']; [done|].
           by apply (Hdis' x).
        -- apply NoDup_cons. split; [|done]. intros Hin. apply (Hdis other); [by right | by left].
    + intros Hin. apply elem_of_cons in Hin as [Hin|Hin].
      * apply Hna. rewrite Hin. by left.
      * apply elem_of_app in Hin as [Hin|Hin]; [apply Hnb; by right|].
        apply elem_of_cons in Hin as [Hin|Hin]; [apply Hnb; rewrite Hin; by left|].
        apply Hna. by right.
  - split; [done|]. split; [|split].
    + split; [done|]. eexists. split; [exact Hother|]. simpl.
      eapply walk_app; [exact Hpa'|]. split; [done|]. eexists. split; [exact Hthis|].
      exact Hpb'.
    + apply NoDup_cons. split.
      * intros Hin. apply elem_of_app in Hin as [Hin|Hin].
        -- apply (Hdis other); [by right | by left].
        -- apply elem_of_cons in Hin as [Hin|Hin]; [by symmetry in Hin | done].
      * apply NoDup_app. split; [done|]. split.
        -- intros x Hx Hx'. apply elem_of_cons in Hx' as [->|Hx']; [done|].
           by apply (Hdis' x).
        -- apply NoDup_cons. split; [|done]. intros Hin. apply (Hdis this); [by left | by right].
    + intros Hin. apply elem_of_cons in Hin as [Hin|Hin].
      * apply Hnb. rewrite Hin. by left.
      * apply elem_of_app in Hin as [Hin|Hin]; [apply Hna; by right|].
        apply elem_of_cons in Hin as [Hin|Hin]; [apply Hna; rewrite Hin; by left|].
        apply Hnb. by right.
  - intros p. unfold count_of.
    destruct (decide (p = other)) as [->|H1]; [by rewrite Hother, Hot|].
    destruct (decide (p = this)) as [->|H2]; [by rewrite Hthis, Ht|].
    by rewrite Hframe.
Qed.

(** ** Rotating a ring, and rings under a change of flags *)

Lemma ring_rotate h this l1 m l2 :
  ring h this (this :: l1 ++ m :: l2) -> ring h m (m :: l2 ++ this :: l1).
Proof.
  intros (_ & Hp & Hnd & Hnull).
  destruct Hp as [_ (t & Ht & Hp)].
  apply walk_split in Hp as (mid & Hp1 & Hp2).
  destruct Hp2 as [-> (om & Hom & Hp2)].
  split; [done|]. split; [|split].
  - split; [done|]. exists om. split; [done|].
    eapply walk_app; [exact Hp2|]. split; [done|]. by exists t.
  - eapply NoDup_Permutation_proper; [|exact Hnd].
    rewrite (Permutation_app_comm l2 (this :: l1)).
    apply (Permutation_middle (this :: l1) l2 m).
  - intros Hin. apply Hnull. set_solver.
Qed.

Lemma count_sum_rotate h this l1 m l2 :
  count_sum h (m :: l2 ++ this :: l1) = count_sum h (this :: l1 ++ m :: l2).
Proof. simpl. rewrite !count_sum_app. simpl. lia. Qed.

Lemma ring_member_rotation h this l m :
  ring h this l -> m ∈ tail l ->
  exists l', ring h m l' /\ this ∈ l' /\ length l' = length l /\
             count_sum h l' = count_sum h l.
Proof.
  intros Hr Hm. pose proof Hr as (Hne & Hp & _).
  destruct l as [|x l0]; [done|]. apply walk_head in Hp as <-. simpl in Hm.
  apply list_elem_of_split in Hm as (l1 & l2 & ->).
  exists (m :: l2 ++ this :: l1). split; [by apply ring_rotate|].
  split; [set_solver|]. split.
  - simpl. rewrite !length_app. simpl. lia.
  - apply count_sum_rotate.
Qed.

Lemma ring_flag_update h this t b a l :
  h !! this = Some t ->
  ring h a l -> ring (<[this := set_collecting b t]> h) a l.
Proof.
  intros Ht (Hne & Hp & Hnd & Hnull). split; [done|]. split; [|done].
  eapply walk_agree; [|exact Hp]. intros x _.
  destruct (decide (x = this)) as [->|Hx].
  - right. exists t, (set_collecting b t). by rewrite lookup_insert_eq.
  - left. by rewrite lookup_insert_ne.
Qed.

Lemma count_sum_flag_update h this t b l :
  h !! this = Some t ->
  count_sum (<[this := set_collecting b t]> h) l = count_sum h l.
Proof.
  intros Ht. apply count_sum_agree. intros p. unfold count_of.
  destruct (decide (p = this)) as [Heq|Hx].
  - subst p. rewrite lookup_insert_eq.
    by rewrite Ht.
  - by rewrite lookup_insert_ne.
Qed.

(** ** The guard of DoCollectSources and DoTraceAll *)

Lemma collecting_scan_spec this s l : forall cur fuel,
  walk (heap s) cur l this -> l <> [] -> this ∉ tail l ->
  (length l <= fuel)%nat ->
  collecting_scan fuel this cur s
  = (Ret (existsb (collecting_of (heap s)) l), s).
Proof.
  induction l as [|x l IH]; intros cur fuel Hp Hne Hnotin Hfuel; [done|].
  destruct fuel as [|fuel]; [simpl in Hfuel; lia|].
  destruct Hp as [-> (o & Ho & Hp)].
  simpl. mstep. rewrite Ho. unfold collecting_of at 1. rewrite Ho.
  destruct (m_collecting o); simpl; [done|].
  destruct l as [|y l'].
  - simpl in Hp. by rewrite Hp, ptr_eqb_refl.
  - pose proof (walk_head _ _ _ _ _ Hp) as Hy.
    rewrite ptr_eqb_neq.
    2:{ intros Heq. apply Hnotin. simpl. rewrite <- Heq, Hy. by left. }
    apply IH; try done.
    + intros Hin. apply Hnotin. simpl. simpl in Hin. by right.
    + simpl in *; lia.
Qed.

Lemma collecting_scan_ring this s l fuel :
  ring (heap s) this l -> (length l <= fuel)%nat ->
  collecting_scan fuel this this s
  = (Ret (existsb (collecting_of (heap s)) l), s).
Proof.
  intros Hr Hfuel. apply collecting_scan_spec; try done; try apply Hr.
  by eapply ring_tail_notin.
Qed.

Lemma existsb_collecting_true h l m :
  m ∈ l -> collecting_of h m = true -> existsb (collecting_of h) l = true.
Proof.
  intros Hm Hc. apply existsb_exists. exists m. split; [|done].
  by apply list_elem_of_In.
Qed.

Lemma existsb_collecting_false h l :
  (forall m, m ∈ l -> collecting_of h m = false) ->
  existsb (collecting_of h) l = false.
Proof.
  intros Hall. apply not_true_is_false. intros Hex.
  apply existsb_exists in Hex as (m & Hm & Hc). apply list_elem_of_In in Hm.
  rewrite (Hall m Hm) in Hc. done.
Qed.

(** An invocation on a ring one of whose guards is set returns at once. *)
Lemma DoCollectSources_busy this s l m path fuel :
  ring (heap s) this l -> m ∈ l -> collecting_of (heap s) m = true ->
  (length l < fuel)%nat ->
  DoCollectSources E fuel this path s = (Ret tt, s).
Proof.
  intros Hr Hm Hc Hfuel. destruct fuel as [|fuel]; [lia|]. simpl.
  rewrite (bind_run _ _ _ _ _ (collecting_scan_ring this s l fuel Hr ltac:(lia))).
  by rewrite (existsb_collecting_true _ _ m).
Qed.

Lemma DoTraceAll_busy this s l m fuel :
  ring (heap s) this l -> m ∈ l -> collecting_of (heap s) m = true ->
  (length l < fuel)%nat ->
  DoTraceAll fuel this s = (Ret tt, s).
Proof.
  intros Hr Hm Hc Hfuel. destruct fuel as [|fuel]; [lia|]. simpl.
  rewrite (bind_run _ _ _ _ _ (collecting_scan_ring this s l fuel Hr ltac:(lia))).
  by rewrite (existsb_collecting_true _ _ m).
Qed.

(** ** The walks of DoCollectSources and DoTraceAll *)

Lemma collect_types_spec resolve hm m path t chain :
  ancestry E t chain ->
  (forall p s, heap s = hm ->
     resolve m p s = (Ret tt, mkState hm (trace s ++ [EvCollectSources m p]))) ->
  forall fuel s, heap s = hm -> (length chain <= fuel)%nat ->
  collect_types E fuel resolve m path t s
  = (Ret tt, mkState hm
       (trace s ++ map (fun ty => EvCollectSources m (fullpath_of E path ty)) chain)).
Proof.
  intros Ha Hres. induction Ha as [|t p l Hne Hp Ha IH]; intros fuel s Hs Hfuel.
  - destruct fuel; simpl; rewrite N.eqb_refl; simpl;
      rewrite app_nil_r; destruct s; simpl in *; by subst.
  - destruct fuel as [|fuel]; [simpl in Hfuel; lia|].
    simpl. destruct (N.eqb_spec t (Object_iid E)) as [|_]; [done|]. simpl.
    rewrite (bind_run _ _ _ _ _ (Hres _ s Hs)).
    rewrite (bind_run _ _ _ _ _ (LookupParent_spec t p _ Hp)).
    rewrite IH by (try done; simpl in Hfuel; lia).
    simpl. by rewrite <- app_assoc.
Qed.

Lemma collect_members_spec resolve hm this chain path d l : forall cur fuel s,
  heap s = hm ->
  walk hm cur l this -> this ∉ l -> null ∉ l ->
  (forall m, m ∈ l -> exists o, hm !! m = Some o /\
       ancestry E (m_iid o) (chain m) /\ (length (chain m) <= d)%nat) ->
  (forall m p s, m ∈ l -> heap s = hm ->
     resolve m p s = (Ret tt, mkState hm (trace s ++ [EvCollectSources m p]))) ->
  (length l + d <= fuel)%nat ->
  collect_members E fuel resolve this cur path s
  = (Ret tt, mkState hm
       (trace s ++ flat_map (fun m => map (fun ty => EvCollectSources m (fullpath_of E path ty))
                                         (chain m)) l)).
Proof.
  induction l as [|x l IH]; intros cur fuel s Hs Hp Hnotin Hnull Hch Hres Hfuel.
  - simpl in Hp. subst cur.
    destruct fuel; simpl; rewrite ptr_eqb_refl; simpl;
      rewrite app_nil_r; destruct s; simpl in *; by subst.
  - destruct Hp as [-> (o & Ho & Hp)].
    destruct fuel as [|fuel]; [simpl in Hfuel; lia|].
    destruct (Hch x) as (o' & Ho' & Ha & Hlen); [by left|].
    rewrite Ho in Ho'. injection Ho' as <-. simpl in Hfuel.
    simpl. rewrite ptr_eqb_neq by (intros ->; apply Hnotin; by left). simpl.
    rewrite ptr_eqb_neq by (intros ->; apply Hnull; by left). simpl.
    rewrite (bind_run _ _ _ _ _ (assert_run s)).
    rewrite (bind_run _ _ _ _ _ (load_run x o s ltac:(by rewrite Hs))).
    rewrite (bind_run _ _ _ _ _
               (collect_types_spec resolve hm x path (m_iid o) (chain x) Ha
                  (fun p s Hs => Hres x p s ltac:(by left) Hs)
                  fuel s Hs ltac:(lia))).
    rewrite (bind_run _ _ _ _ _ (load_run x o (mkState hm _) Ho)).
    rewrite IH; try done.
    + simpl. by rewrite <- app_assoc.
    + intros Hin. apply Hnotin. by right.
    + intros Hin. apply Hnull. by right.
    + intros m Hm. apply Hch. by right.
    + intros m p s' Hm. apply Hres. by right.
    + simpl in Hfuel. lia.
Qed.

Lemma trace_members_spec resolve hm this l : forall cur fuel s,
  heap s = hm ->
  walk hm cur l this -> this ∉ l -> null ∉ l ->
  (forall m s, m ∈ l -> heap s = hm ->
     resolve m s = (Ret tt, mkState hm (trace s ++ [EvTraceAll m]))) ->
  (length l <= fuel)%nat ->
  trace_members fuel resolve this cur s
  = (Ret tt, mkState hm (trace s ++ map EvTraceAll l)).
Proof.
  induction l as [|x l IH]; intros cur fuel s Hs Hp Hnotin Hnull Hres Hfuel.
  - simpl in Hp. subst cur.
    destruct fuel; simpl; rewrite ptr_eqb_refl; simpl;
      rewrite app_nil_r; destruct s; simpl in *; by subst.
  - destruct Hp as [-> (o & Ho & Hp)].
    destruct fuel as [|fuel]; [simpl in Hfuel; lia|].
    simpl. rewrite ptr_eqb_neq by (intros ->; apply Hnotin; by left). simpl.
    rewrite ptr_eqb_neq by (intros ->; apply Hnull; by left). simpl.
    rewrite (bind_run _ _ _ _ _ (assert_run s)).
    rewrite (bind_run _ _ _ _ _ (Hres x s ltac:(by left) Hs)).
    rewrite (bind_run _ _ _ _ _ (load_run x o (mkState hm _) Ho)).
    rewrite IH; try done.
    + simpl. by rewrite <- app_assoc.
    + intros Hin. apply Hnotin. by right.
    + intros Hin. apply Hnull. by right.
    + intros m s' Hm. apply Hres. by right.
    + simpl in Hfuel. lia.
Qed.

Lemma GetTraceResolver_run this s l fuel :
  ring (heap s) this l -> live (heap s) l -> (length l <= fuel)%nat ->
  GetTraceResolver fuel this s = (Ret (mkResolver this), s).
Proof.
  intros Hr Hl Hfuel. unfold GetTraceResolver.
  rewrite (bind_run _ _ _ _ _ (CheckLoose_live this s l fuel Hr Hl Hfuel)).
  by rewrite (bind_run _ _ _ _ _ (assert_run s)).
Qed.

Lemma guard_restore (h : gmap nat Object) this t :
  h !! this = Some t -> m_collecting t = false ->
  <[this := set_collecting false (set_collecting true t)]>
    (<[this := set_collecting true t]> h) = h.
Proof.
  intros Ht Hc. rewrite insert_insert_eq. apply insert_id. rewrite Ht. f_equal.
  destruct t; simpl in *. by subst.
Qed.

(** The state in which the walk runs: the guard of the receiver is set. *)
Lemma guarded_ring h this t l m :
  ring h this l -> live h l -> h !! this = Some t -> m ∈ tail l ->
  let hm := <[this := set_collecting true t]> h in
  exists l', ring hm m l' /\ live hm l' /\ this ∈ l' /\ length l' = length l /\
             collecting_of hm this = true.
Proof.
  intros Hr Hl Ht Hm hm.
  destruct (ring_member_rotation h this l m Hr Hm) as (l' & Hr' & Hin & Hlen & Hsum).
  exists l'. split; [by apply ring_flag_update|]. split; [|split; [done|split; [done|]]].
  - unfold live, hm. rewrite (count_sum_flag_update h this t true l' Ht). by rewrite Hsum.
  - unfold collecting_of, hm. by rewrite lookup_insert_eq.
Qed.

Lemma DoCollectSources_run this s l chain d path fuel :
  ring (heap s) this l -> live (heap s) l ->
  (forall m, m ∈ l -> collecting_of (heap s) m = false) ->
  (forall m, m ∈ tail l -> exists o, heap s !! m = Some o /\
       ancestry E (m_iid o) (chain m) /\ (length (chain m) <= d)%nat) ->
  (length l + d + 2 <= fuel)%nat ->
  DoCollectSources E fuel this path s
  = (Ret tt, mkState (heap s) (trace s ++ collect_events E chain path l)).
Proof.
  intros Hr Hl Hclear Hch Hfuel.
  pose proof Hr as (Hne & Hp & Hnd & Hnull).
  destruct l as [|x l']; [done|]. pose proof (walk_head _ _ _ _ _ Hp) as Hx. subst x.
  destruct Hp as [_ (t & Ht & Hp)].
  apply NoDup_cons in Hnd as [Hthis Hnd].
  assert (Hct : m_collecting t = false).
  { specialize (Hclear this ltac:(by left)). unfold collecting_of in Hclear.
    by rewrite Ht in Hclear. }
  destruct fuel as [|fuel]; [lia|]. simpl in Hfuel. simpl.
  rewrite (bind_run _ _ _ _ _ (collecting_scan_ring this s _ fuel Hr ltac:(simpl; lia))).
  rewrite (existsb_collecting_false _ _ Hclear).
  rewrite (bind_run _ _ _ _ _ (update_run this _ t s Ht)).
  set (hm := <[this := set_collecting true t]> (heap s)).
  assert (Htm : hm !! this = Some (set_collecting true t)) by apply lookup_insert_eq.
  rewrite (bind_run _ _ _ _ _ (load_run this _ (mkState hm _) Htm)).
  simpl m_next.
  assert (Hframe : forall z, z ∈ l' -> hm !! z = heap s !! z).
  { intros z Hz. unfold hm. rewrite lookup_insert_ne; [done|]. intros ->. done. }
  match goal with
  | |- context [collect_members E fuel ?r _ _ _] => set (resolve := r)
  end.
  assert (Hw : walk hm (m_next t) l' this).
  { eapply walk_agree; [|exact Hp]. intros z Hz. left. by apply Hframe. }
  assert (Hnull' : null ∉ l') by (intros Hin; apply Hnull; by right).
  assert (Hch' : forall m, m ∈ l' -> exists o, hm !! m = Some o /\
             ancestry E (m_iid o) (chain m) /\ (length (chain m) <= d)%nat).
  { intros m Hm. rewrite (Hframe m Hm). by apply Hch. }
  assert (Hres : forall m p s', m ∈ l' -> heap s' = hm ->
             resolve m p s' = (Ret tt, mkState hm (trace s' ++ [EvCollectSources m p]))).
  { intros m p s' Hm Hs'. unfold resolve.
    destruct (guarded_ring (heap s) this t (this :: l') m Hr Hl Ht Hm)
      as (lr & Hrr & Hlr & Hin & Hlen & Hcol).
    fold hm in Hrr, Hlr, Hcol.
    set (s'' := mkState hm (trace s' ++ [EvCollectSources m p])).
    assert (Hemit : emit (EvCollectSources m p) s' = (Ret tt, s'')).
    { unfold emit, s''. by rewrite Hs'. }
    assert (Hrr' : ring (heap s') m lr) by (by rewrite Hs').
    assert (Hlr' : live (heap s') lr) by (by rewrite Hs').
    rewrite (bind_run _ _ _ _ _
               (GetTraceResolver_run m s' lr fuel Hrr' Hlr' ltac:(simpl in Hlen; lia))).
    rewrite (bind_run _ _ _ _ _ Hemit).
    simpl m_aggregate.
    apply (DoCollectSources_busy m s'' lr this); try done.
    simpl in Hlen. lia. }
  rewrite (bind_run _ _ _ _ _
             (collect_members_spec resolve hm this chain path d l' (m_next t) fuel
                (mkState hm (trace s)) eq_refl Hw Hthis Hnull' Hch' Hres ltac:(lia))).
  rewrite (update_run this _ _ (mkState hm _) Htm). simpl.
  unfold hm. by rewrite (guard_restore _ _ _ Ht Hct).
Qed.

Lemma DoTraceAll_run this s l fuel :
  ring (heap s) this l -> live (heap s) l ->
  (forall m, m ∈ l -> collecting_of (heap s) m = false) ->
  (length l + 2 <= fuel)%nat ->
  DoTraceAll fuel this s
  = (Ret tt, mkState (heap s) (trace s ++ map EvTraceAll (tail l))).
Proof.
  intros Hr Hl Hclear Hfuel.
  pose proof Hr as (Hne & Hp & Hnd & Hnull).
  destruct l as [|x l']; [done|]. pose proof (walk_head _ _ _ _ _ Hp) as Hx. subst x.
  destruct Hp as [_ (t & Ht & Hp)].
  apply NoDup_cons in Hnd as [Hthis Hnd].
  assert (Hct : m_collecting t = false).
  { specialize (Hclear this ltac:(by left)). unfold collecting_of in Hclear.
    by rewrite Ht in Hclear. }
  destruct fuel as [|fuel]; [lia|]. simpl in Hfuel. simpl.
  rewrite (bind_run _ _ _ _ _ (collecting_scan_ring this s _ fuel Hr ltac:(simpl; lia))).
  rewrite (existsb_collecting_false _ _ Hclear).
  rewrite (bind_run _ _ _ _ _ (update_run this _ t s Ht)).
  set (hm := <[this := set_collecting true t]> (heap s)).
  assert (Htm : hm !! this = Some (set_collecting true t)) by apply lookup_insert_eq.
  rewrite (bind_run _ _ _ _ _ (load_run this _ (mkState hm _) Htm)).
  simpl m_next.
  assert (Hframe : forall z, z ∈ l' -> hm !! z = heap s !! z).
  { intros z Hz. unfold hm. rewrite lookup_insert_ne; [done|]. intros ->. done. }
  match goal with
  | |- context [trace_members fuel ?r _ _] => set (resolve := r)
  end.
  assert (Hw : walk hm (m_next t) l' this).
  { eapply walk_agree; [|exact Hp]. intros z Hz. left. by apply Hframe. }
  assert (Hnull' : null ∉ l') by (intros Hin; apply Hnull; by right).
  assert (Hres : forall m s', m ∈ l' -> heap s' = hm ->
             resolve m s' = (Ret tt, mkState hm (trace s' ++ [EvTraceAll m]))).
  { intros m s' Hm Hs'. unfold resolve.
    destruct (guarded_ring (heap s) this t (this :: l') m Hr Hl Ht Hm)
      as (lr & Hrr & Hlr & Hin & Hlen & Hcol).
    fold hm in Hrr, Hlr, Hcol.
    set (s'' := mkState hm (trace s' ++ [EvTraceAll m])).
    assert (Hemit : emit (EvTraceAll m) s' = (Ret tt, s'')).
    { unfold emit, s''. by rewrite Hs'. }
    assert (Hrr' : ring (heap s') m lr) by (by rewrite Hs').
    assert (Hlr' : live (heap s') lr) by (by rewrite Hs').
    rewrite (bind_run _ _ _ _ _
               (GetTraceResolver_run m s' lr fuel Hrr' Hlr' ltac:(simpl in Hlen; lia))).
    rewrite (bind_run _ _ _ _ _ Hemit).
    simpl m_aggregate.
    apply (DoTraceAll_busy m s'' lr this); try done.
    simpl in Hlen. lia. }
  rewrite (bind_run _ _ _ _ _
             (trace_members_spec resolve hm this l' (m_next t) fuel
                (mkState hm (trace s)) eq_refl Hw Hthis Hnull' Hres ltac:(lia))).
  rewrite (update_run this _ _ (mkState hm _) Htm). simpl.
  unfold hm. by rewrite (guard_restore _ _ _ Ht Hct).
Qed.

(** C5, as the code has it. With no guard set, DoCollectSources hands over
    to the resolver of every member of the ring except the receiver, in
    ring order, once for every type of the chain of that member from its
    own type up to but excluding the root, with the path extended by "/$"
    and the name of that type; DoTraceAll hands over once to the resolver
    of every member except the receiver and builds no path. The receiver
    itself is not visited by either. *)
Theorem enumeration_visits_other_members this s l chain d path fuel :
  ring (heap s) this l -> live (heap s) l ->
  (forall m, m ∈ l -> collecting_of (heap s) m = false) ->
  (forall m, m ∈ tail l -> exists o, heap s !! m = Some o /\
       ancestry E (m_iid o) (chain m) /\ (length (chain m) <= d)%nat) ->
  (length l + d + 2 <= fuel)%nat ->
  DoCollectSources E fuel this path s
  = (Ret tt, mkState (heap s)
       (trace s ++
        flat_map (fun m => map (fun ty => EvCollectSources m
                                    (String.append (String.append path "/$")
                                                   (LookupByUid E ty)))
                               (chain m))
                 (tail l))) /\
  DoTraceAll fuel this s
  = (Ret tt, mkState (heap s) (trace s ++ map EvTraceAll (tail l))).
Proof.
  intros Hr Hl Hclear Hch Hfuel. split.
  - by apply (DoCollectSources_run this s l chain d).
  - apply (DoTraceAll_run this s l); try done. lia.
Qed.

(** An invocation made while the receiver of a walk has its guard set
    returns at once, whatever member of the ring it is made on. *)
Lemma reentrant_call_returns this s l t m path tr fuel :
  ring (heap s) this l -> heap s !! this = Some t -> m ∈ l ->
  (length l < fuel)%nat ->
  let guarded := mkState (<[this := set_collecting true t]> (heap s)) tr in
  DoCollectSources E fuel m path guarded = (Ret tt, guarded) /\
  DoTraceAll fuel m guarded = (Ret tt, guarded).
Proof.
  intros Hr Ht Hm Hfuel guarded.
  assert (Hcol : collecting_of (heap guarded) this = true).
  { unfold collecting_of. simpl. by rewrite lookup_insert_eq. }
  assert (Hm' : m = this \/ m ∈ tail l).
  { destruct Hr as (Hne & Hp & _). destruct l as [|x l']; [done|].
    apply walk_head in Hp as <-. apply elem_of_cons in Hm as [->|Hm]; auto. }
  destruct Hm' as [->|Hm'].
  - assert (Hrg : ring (heap guarded) this l) by by apply ring_flag_update.
    split.
    + by apply (DoCollectSources_busy this guarded l this).
    + by apply (DoTraceAll_busy this guarded l this).
  - destruct (ring_member_rotation (heap s) this l m Hr Hm')
      as (lr & Hrr & Hin & Hlen & _).
    assert (Hrg : ring (heap guarded) m lr) by by apply ring_flag_update.
    split.
    + apply (DoCollectSources_busy m guarded lr this); try done. lia.
    + apply (DoTraceAll_busy m guarded lr this); try done. lia.
Qed.

(** C6. When the guard of some member of the ring is set, DoCollectSources
    and DoTraceAll return at once and change nothing. Otherwise the guard
    of the receiver is set while the ring is walked: in that state an
    invocation on any member returns at once; so the walk ends, with the
    hand-overs of the outer walk only, and leaves the heap as it found it,
    the guard cleared. *)
Theorem reentrancy_guard this s l chain d path fuel :
  ring (heap s) this l -> (length l + d + 2 <= fuel)%nat ->
  ((exists m, m ∈ l /\ collecting_of (heap s) m = true) ->
     DoCollectSources E fuel this path s = (Ret tt, s) /\
     DoTraceAll fuel this s = (Ret tt, s)) /\
  (exists t, heap s !! this = Some t /\
     forall m p tr, m ∈ l ->
       let guarded := mkState (<[this := set_collecting true t]> (heap s)) tr in
       DoCollectSources E fuel m p guarded = (Ret tt, guarded) /\
       DoTraceAll fuel m guarded = (Ret tt, guarded)) /\
  ((forall m, m ∈ l -> collecting_of (heap s) m = false) ->
   live (heap s) l ->
   (forall m, m ∈ tail l -> exists o, heap s !! m = Some o /\
        ancestry E (m_iid o) (chain m) /\ (length (chain m) <= d)%nat) ->
   DoCollectSources E fuel this path s
   = (Ret tt, mkState (heap s) (trace s ++ collect_events E chain path l)) /\
   DoTraceAll fuel this s
   = (Ret tt, mkState (heap s) (trace s ++ map EvTraceAll (tail l)))).
Proof.
  intros Hr Hfuel. split; [|split].
  - intros (m & Hm & Hc). split.
    + apply (DoCollectSources_busy this s l m); try done. lia.
    + apply (DoTraceAll_busy this s l m); try done. lia.
  - destruct (walk_lookup (heap s) l this this this (proj1 (proj2 Hr))) as [t Ht].
    { destruct Hr as (Hne & Hp & _). destruct l; [done|].
      apply walk_head in Hp as <-. by left. }
    exists t. split; [done|]. intros m p tr Hm.
    apply (reentrant_call_returns this s l t m p tr fuel); try done. lia.
  - intros Hclear Hl Hch. split.
    + by apply (DoCollectSources_run this s l chain d).
    + apply (DoTraceAll_run this s l); try done. lia.
Qed.

(** ** The interface-selecting resolver *)

Lemma substring_all s : String.substring 0 (String.length s) s = s.
Proof. induction s as [|a s IH]; simpl; [done|]. by rewrite IH. Qed.

Lemma ParseForInterface_unresolved r path name s d l fuel :
  GetElement E path = String "$"%char name ->
  LookupByName E name <> 0 -> LookupByName E name <= 65535 ->
  ring (heap s) (m_aggregate r) l -> live (heap s) l ->
  (forall m, m ∈ l -> depth_le E (heap s) d m) ->
  (forall m, m ∈ l -> ~ is_a E (heap s) m (LookupByName E name)) ->
  (length l + d <= fuel)%nat ->
  ParseForInterface E fuel r path s = (Ret null, s).
Proof.
  intros Hel Hn0 Hn16 Hr Hl Hd Hnone Hfuel.
  unfold ParseForInterface. rewrite Hel.
  assert (Hdollar : dollar_pos_nonzero (String "$"%char name) = false).
  { unfold dollar_pos_nonzero. simpl. by destruct name. }
  rewrite Hdollar.
  assert (Hsub : String.substring 1 (String.length (String "$"%char name) - 1) (String "$"%char name)
                 = name).
  { simpl. rewrite Nat.sub_0_r. apply substring_all. }
  rewrite Hsub. unfold InterfaceId_LookupByName.
  replace (negb (LookupByName E name =? 0) && (LookupByName E name <=? 65535)) with true.
  2:{ symmetry. apply andb_true_iff. split.
      - apply negb_true_iff. by apply N.eqb_neq.
      - by apply N.leb_le. }
  unfold bind, NS_ASSERT, ret. simpl.
  by apply (DoQueryInterface_no_match (m_aggregate r) _ s d l fuel).
Qed.

(** C7. When the first element of the path is '$' followed by a registered
    type name and no member of the ring of the resolver has that type or
    an ancestor of it, Connect and Disconnect return normally, hand over to
    no resolver and change nothing. *)
Theorem unresolved_selector_is_noop r path name s d l fuel :
  GetElement E path = String "$"%char name ->
  LookupByName E name <> 0 -> LookupByName E name <= 65535 ->
  ring (heap s) (m_aggregate r) l -> live (heap s) l ->
  (forall m, m ∈ l -> depth_le E (heap s) d m) ->
  (forall m, m ∈ l -> ~ is_a E (heap s) m (LookupByName E name)) ->
  (length l + d < fuel)%nat ->
  Resolver_Connect E fuel r path s = (Ret tt, s) /\
  Resolver_Disconnect E fuel r path s = (Ret tt, s).
Proof.
  intros Hel Hn0 Hn16 Hr Hl Hd Hnone Hfuel.
  destruct fuel as [|fuel]; [lia|].
  pose proof (ParseForInterface_unresolved r path name s d l fuel
                Hel Hn0 Hn16 Hr Hl Hd Hnone ltac:(lia)) as Hparse.
  split; simpl; by rewrite (bind_run _ _ _ _ _ Hparse).
Qed.

(** ** Further properties of rings, counts and queries *)

Lemma ring_head h this l : ring h this l -> exists l', l = this :: l'.
Proof.
  intros (Hne & Hp & _). destruct l as [|x l']; [done|].
  apply walk_head in Hp as <-. by exists l'.
Qed.

Lemma ring_member_cases h this l m :
  ring h this l -> m ∈ l -> m = this \/ m ∈ tail l.
Proof.
  intros Hr Hm. destruct (ring_head h this l Hr) as (l' & ->).
  apply elem_of_cons in Hm as [->|Hm]; auto.
Qed.

(** A ring listed from one member is a ring listed from any other. *)
Lemma ring_from_member h this l m :
  ring h this l -> m ∈ l ->
  exists l', ring h m l' /\ length l' = length l /\
             count_sum h l' = count_sum h l /\ (forall x, x ∈ l' <-> x ∈ l).
Proof.
  intros Hr Hm. destruct (ring_member_cases h this l m Hr Hm) as [->|Hm'].
  { by exists l. }
  destruct (ring_head h this l Hr) as (l0 & ->). simpl in Hm'.
  apply list_elem_of_split in Hm' as (l1 & l2 & ->).
  exists (m :: l2 ++ this :: l1). split; [by apply ring_rotate|]. split; [|split].
  - simpl. rewrite !length_app. simpl. lia.
  - apply count_sum_rotate.
  - intros x. set_solver.
Qed.

(** An assignment to an object that keeps its m_next keeps every ring. *)
Lemma ring_update h p o o' a l :
  h !! p = Some o -> m_next o' = m_next o ->
  ring h a l -> ring (<[p := o']> h) a l.
Proof.
  intros Ho Hn (Hne & Hp & Hnd & Hnull). split; [done|]. split; [|done].
  eapply walk_agree; [|exact Hp]. intros x _.
  destruct (decide (x = p)) as [->|Hx].
  - right. exists o, o'. by rewrite lookup_insert_eq.
  - left. by rewrite lookup_insert_ne.
Qed.

Lemma count_sum_update h p o o' l :
  h !! p = Some o -> m_count o' = m_count o ->
  count_sum (<[p := o']> h) l = count_sum h l.
Proof.
  intros Ho Hc. apply count_sum_agree. intros q. unfold count_of.
  destruct (decide (q = p)) as [Heq|Hx].
  - subst q. by rewrite lookup_insert_eq, Ho.
  - by rewrite lookup_insert_ne.
Qed.

Lemma count_sum_agree_on h h' l :
  (forall p, p ∈ l -> count_of h' p = count_of h p) ->
  count_sum h' l = count_sum h l.
Proof.
  induction l as [|x l IH]; intros Hc; simpl; [done|].
  rewrite IH by (intros p Hp; apply Hc; by right).
  by rewrite Hc by by left.
Qed.

Lemma count_sum_member h l m : m ∈ l -> count_of h m <= count_sum h l.
Proof.
  induction l as [|x l IH]; intros Hm; [by apply elem_of_nil in Hm|].
  simpl. apply elem_of_cons in Hm as [->|Hm]; [lia|].
  specialize (IH Hm). lia.
Qed.

Lemma walk_parents_same iid fuel s :
  walk_parents E fuel iid iid s = (Ret iid, s).
Proof. destruct fuel; simpl; by rewrite N.eqb_refl. Qed.

(** The first turn of the loop of DoQueryInterface returns the receiver
    when the walk over its own type ends on the requested identifier. *)
Lemma DoQueryInterface_receiver this iid s l o fuel :
  ring (heap s) this l -> live (heap s) l -> (length l <= S fuel)%nat ->
  heap s !! this = Some o ->
  walk_parents E fuel iid (m_iid o) s = (Ret iid, s) ->
  DoQueryInterface E (S fuel) this iid s = (Ret this, s).
Proof.
  intros Hr Hl Hfuel Ho Hw.
  apply (DoQueryInterface_run this iid s l); try done.
  simpl. destruct (ring_head _ _ _ Hr) as (l' & ->).
  rewrite ptr_eqb_neq by (intros ->; apply Hr; by left). simpl.
  rewrite (bind_run _ _ _ _ _ (assert_run s)).
  rewrite (bind_run _ _ _ _ _ (load_run this o s Ho)).
  rewrite (bind_run _ _ _ _ _ Hw). by rewrite N.eqb_refl.
Qed.

(** X4. Object::Object () at a fresh address gives a live ring of one,
    not disposed, that passes CheckLoose and answers a query for the root
    identifier with itself; every ring that was there stays as it was. *)
Theorem constructed_object_is_singleton_ring h this tr fuel :
  h !! this = None -> this <> null -> (1 <= fuel)%nat ->
  let h' := <[this := new_Object E this]> h in
  ring h' this [this] /\ live h' [this] /\ not_disposed h' this /\
  CheckLoose fuel this (mkState h' tr) = (Ret true, mkState h' tr) /\
  DoQueryInterface E fuel this (Object_iid E) (mkState h' tr)
  = (Ret this, mkState h' tr) /\
  (forall a l, ring h a l -> ring h' a l /\ count_sum h' l = count_sum h l).
Proof.
  intros Hfresh Hnull Hfuel h'.
  assert (Hthis : h' !! this = Some (new_Object E this)) by apply lookup_insert_eq.
  assert (Hr : ring h' this [this]).
  { split; [done|]. split; [|split].
    - split; [done|]. eexists. split; [exact Hthis | done].
    - apply NoDup_singleton.
    - intros Hin. apply list_elem_of_singleton in Hin. done. }
  assert (Hl : live h' [this]).
  { unfold live, count_sum, count_of. simpl. rewrite Hthis. simpl. done. }
  split; [done|]. split; [done|]. split.
  { intros o Ho. rewrite Hthis in Ho. by injection Ho as <-. }
  split; [by apply (CheckLoose_live this (mkState h' tr) [this])|]. split.
  - destruct fuel as [|fuel]; [lia|].
    apply (DoQueryInterface_receiver this _ (mkState h' tr) [this] (new_Object E this));
      try done; try (simpl; lia). apply walk_parents_same.
  - intros a l Hra.
    assert (Hnotin : this ∉ l).
    { intros Hin. destruct (walk_lookup h l a a this (proj1 (proj2 Hra)) Hin) as [o Ho].
      congruence. }
    split.
    + destruct Hra as (Hne & Hp & Hrest). split; [done|]. split; [|done].
      eapply walk_agree; [|exact Hp]. intros x Hx. left.
      unfold h'. rewrite lookup_insert_ne; [done|]. intros ->. done.
    + apply count_sum_agree_on. intros p Hp. unfold count_of, h'.
      rewrite lookup_insert_ne; [done|]. intros ->. done.
Qed.

(** X5. CheckLoose gives the same answer whichever member of the ring it
    is called on. *)
Theorem CheckLoose_member_independent this s l m fuel :
  ring (heap s) this l -> m ∈ l -> (length l <= fuel)%nat ->
  CheckLoose fuel m s = CheckLoose fuel this s.
Proof.
  intros Hr Hm Hfuel.
  destruct (ring_from_member (heap s) this l m Hr Hm) as (l' & Hr' & Hlen & Hsum & _).
  rewrite (CheckLoose_spec m s l' fuel Hr') by lia.
  rewrite (CheckLoose_spec this s l fuel Hr) by lia.
  by rewrite Hsum.
Qed.

(** X6. When Check holds for some member and the counts of the ring sum
    to less than 2^32, CheckLoose holds on every member. *)
Theorem Check_implies_CheckLoose this s l m k fuel :
  ring (heap s) this l -> m ∈ l -> k ∈ l ->
  Check m s = (Ret true, s) ->
  count_sum (heap s) l < 2 ^ 32 -> (length l <= fuel)%nat ->
  CheckLoose fuel k s = (Ret true, s).
Proof.
  intros Hr Hm Hk Hcheck Hsum Hfuel.
  assert (Hpos : 0 < count_of (heap s) m).
  { unfold Check, bind, load, ret in Hcheck. unfold count_of.
    destruct (heap s !! m) as [o|]; [|discriminate].
    injection Hcheck as Hc. by apply N.ltb_lt. }
  pose proof (count_sum_member (heap s) l m Hm) as Hle.
  destruct (ring_from_member (heap s) this l k Hr Hk) as (l' & Hr' & Hlen & Hsum' & _).
  apply (CheckLoose_live k s l'); try done; [|lia].
  unfold live. rewrite Hsum'. apply live_no_wrap; [done | lia].
Qed.

(** X7. On a ring whose counts have the 32-bit sum zero, DoQueryInterface,
    GetTraceResolver, TraceConnect and TraceDisconnect stop on the
    CheckLoose assertion and change nothing. *)
Theorem unreferenced_ring_stops this s l iid path fuel :
  ring (heap s) this l -> uint32 (count_sum (heap s) l) = 0 ->
  (length l <= fuel)%nat ->
  DoQueryInterface E fuel this iid s = (Stop AssertFailed, s) /\
  GetTraceResolver fuel this s = (Stop AssertFailed, s) /\
  TraceConnect E fuel this path s = (Stop AssertFailed, s) /\
  TraceDisconnect E fuel this path s = (Stop AssertFailed, s).
Proof.
  intros Hr Hz Hfuel.
  assert (Hc : CheckLoose fuel this s = (Ret false, s)).
  { rewrite (CheckLoose_spec this s l fuel Hr Hfuel). by rewrite Hz. }
  unfold DoQueryInterface, GetTraceResolver, TraceConnect, TraceDisconnect.
  by rewrite !(bind_run _ _ _ _ _ Hc).
Qed.

(** X8. A member whose type, or an ancestor of it up to the root, is the
    requested identifier gets itself from DoQueryInterface, wherever it
    stands in the ring. *)
Theorem DoQueryInterface_own_type a this iid s d l fuel :
  ring (heap s) a l -> live (heap s) l -> this ∈ l ->
  depth_le E (heap s) d this -> is_a E (heap s) this iid ->
  (length l <= fuel)%nat -> (d < fuel)%nat ->
  DoQueryInterface E fuel this iid s = (Ret this, s).
Proof.
  intros Hr Hl Hin (o & chain & Ho & Ha & Hlen) Hisa Hfuel Hd.
  destruct (ring_from_member (heap s) a l this Hr Hin) as (l' & Hr' & Hlen' & Hsum & _).
  destruct fuel as [|fuel]; [lia|].
  apply (DoQueryInterface_receiver this iid s l' o); try done.
  - unfold live. by rewrite Hsum.
  - lia.
  - rewrite (walk_parents_spec iid s (m_iid o) chain Ha) by lia.
    apply (is_a_iff (heap s) this o chain iid Ho Ha) in Hisa.
    case_decide as Hc; [done|]. destruct Hisa as [->|Hisa]; done.
Qed.

(** X9. SetInterfaceId stops on its assertion, changing nothing, when the
    count of the object itself is zero, live ring or not; otherwise it
    changes m_iid only, keeps every ring and every count, and a query for
    the new identifier on that object then returns the object. *)
Theorem SetInterfaceId_then_query this iid s o :
  heap s !! this = Some o ->
  (m_count o = 0 -> SetInterfaceId this iid s = (Stop AssertFailed, s)) /\
  (m_count o <> 0 ->
   let s' := mkState (<[this := set_iid iid o]> (heap s)) (trace s) in
   SetInterfaceId this iid s = (Ret tt, s') /\
   (forall a l, ring (heap s) a l ->
      ring (heap s') a l /\ count_sum (heap s') l = count_sum (heap s) l) /\
   (forall l fuel, ring (heap s) this l -> live (heap s) l ->
      (length l <= fuel)%nat ->
      DoQueryInterface E fuel this iid s' = (Ret this, s'))).
Proof.
  intros Ho. split.
  - intros Hz. unfold SetInterfaceId, Check.
    unfold bind, load, ret, NS_ASSERT. by rewrite Ho, Hz.
  - intros Hnz s'. split; [|split].
    + unfold SetInterfaceId, Check, bind, load, ret, NS_ASSERT, update.
      rewrite Ho. replace (0 <? m_count o) with true
        by (symmetry; apply N.ltb_lt; lia). by rewrite Ho.
    + intros a l Hra. split.
      * by apply (ring_update (heap s) this o).
      * by apply (count_sum_update (heap s) this o).
    + intros l fuel Hr Hl Hfuel.
      assert (Hr' : ring (heap s') this l) by by apply (ring_update (heap s) this o).
      assert (Hl' : live (heap s') l).
      { unfold live. simpl. by rewrite (count_sum_update (heap s) this o). }
      destruct fuel as [|fuel].
      { destruct Hr as (Hne & _). destruct l; [done | simpl in Hfuel; lia]. }
      apply (DoQueryInterface_receiver this iid s' l (set_iid iid o)); try done.
      * simpl. by rewrite lookup_insert_eq.
      * apply walk_parents_same.
Qed.

(** ** Further properties of AddInterface *)



Lemma set_next_twice a b o : set_next a (set_next b o) = set_next a o.
Proof. done. Qed.

Lemma AddInterface_run this other s t ot fuel :
  this <> other ->
  heap s !! this = Some t -> heap s !! other = Some ot ->
  m_disposed t = false -> m_disposed ot = false ->
  CheckLoose fuel this s = (Ret true, s) ->
  CheckLoose fuel other s = (Ret true, s) ->
  let s2 := mkState (<[other := set_next (m_next t) ot]>
                       (<[this := set_next (m_next ot) t]> (heap s))) (trace s) in
  CheckLoose fuel this s2 = (Ret true, s2) ->
  CheckLoose fuel other s2 = (Ret true, s2) ->
  AddInterface fuel this other s = (Ret tt, s2).
Proof.
  intros Hneq Ht Hot Hdt Hdo Hc1 Hc2 s2 Hc3 Hc4.
  unfold AddInterface.
  rewrite (bind_run _ _ _ _ _ (load_run this t s Ht)), Hdt. simpl negb.
  rewrite (bind_run _ _ _ _ _ (assert_run s)).
  rewrite (bind_run _ _ _ _ _ (load_run other ot s Hot)), Hdo. simpl negb.
  rewrite (bind_run _ _ _ _ _ (assert_run s)).
  rewrite (bind_run _ _ _ _ _ Hc1).
  rewrite (bind_run _ _ _ _ _ (assert_run s)).
  rewrite (bind_run _ _ _ _ _ Hc2).
  rewrite (bind_run _ _ _ _ _ (assert_run s)).
  rewrite (bind_run _ _ _ _ _ (load_run this t s Ht)).
  rewrite (bind_run _ _ _ _ _ (load_run other ot s Hot)).
  rewrite (bind_run _ _ _ _ _ (update_run this _ t s Ht)).
  set (s1 := mkState (<[this := set_next (m_next ot) t]> (heap s)) (trace s)).
  assert (Hot1 : heap s1 !! other = Some ot).
  { simpl. by rewrite lookup_insert_ne. }
  rewrite (bind_run _ _ _ _ _ (update_run other _ ot s1 Hot1)).
  fold s2.
  rewrite (bind_run _ _ _ _ _ Hc3).
  rewrite (bind_run _ _ _ _ _ (assert_run s2)).
  by rewrite (bind_run _ _ _ _ _ Hc4).
Qed.

(** ** The call of AddInterface, with the reference of its parameter *)

Lemma uint32_small n : n < 2 ^ 32 -> uint32 n = n.
Proof. apply N.mod_small. Qed.

(** A reference taken and given back leaves a 32-bit count as it was. *)
Lemma uint32_ref_unref c :
  c < 2 ^ 32 -> uint32 (uint32 (c + 1) + (2 ^ 32 - 1)) = c.
Proof.
  intros Hc. rewrite uint32_add_l. unfold uint32.
  replace (c + 1 + (2 ^ 32 - 1)) with (c + 1 * 2 ^ 32) by lia.
  rewrite N.Div0.mod_add. by apply N.mod_small.
Qed.

Lemma count_sum_insert_notin h p o' l :
  p ∉ l -> count_sum (<[p := o']> h) l = count_sum h l.
Proof.
  intros Hp. apply count_sum_agree_on. intros q Hq. unfold count_of.
  rewrite lookup_insert_ne; [done|]. by intros ->.
Qed.

(** The sum over a list that holds [p] once, when the object at [p] is
    replaced. *)
Lemma count_sum_insert h p o' l :
  NoDup l -> p ∈ l ->
  count_sum (<[p := o']> h) l + count_of h p = count_sum h l + m_count o'.
Proof.
  induction l as [|x l IH]; intros Hnd Hp; [by apply elem_of_nil in Hp|].
  apply NoDup_cons in Hnd as [Hx Hnd]. simpl.
  destruct (decide (p = x)) as [->|Hpx].
  - rewrite (count_sum_insert_notin h x o' l Hx).
    unfold count_of at 1. rewrite lookup_insert_eq. lia.
  - apply elem_of_cons in Hp as [Hp|Hp]; [done|].
    specialize (IH Hnd Hp).
    replace (count_of (<[p := o']> h) x) with (count_of h x); [lia|].
    unfold count_of. by rewrite lookup_insert_ne.
Qed.

Lemma count_sum_nonzero h l :
  count_sum h l <> 0 -> exists m, m ∈ l /\ count_of h m <> 0.
Proof.
  induction l as [|x l IH]; simpl; intros Hs; [done|].
  destruct (N.eq_dec (count_of h x) 0) as [Hz|Hnz].
  - destruct IH as (m & Hm & Hc); [lia|]. exists m. split; [by right | done].
  - exists x. split; [by left | done].
Qed.

Lemma live_nonzero h l : live h l -> exists m, m ∈ l /\ count_of h m <> 0.
Proof.
  intros Hl. apply count_sum_nonzero. intros Hz. apply Hl. by rewrite Hz.
Qed.

Lemma Ref_run p o s :
  heap s !! p = Some o ->
  Ref p s = (Ret tt, mkState (<[p := set_count (uint32 (m_count o + 1)) o]> (heap s))
                             (trace s)).
Proof. intros Ho. unfold Ref. by rewrite (update_run p _ o s Ho). Qed.

(** The call on two different objects, as far as the release of the
    parameter: the parameter's reference is there while the four CheckLoose
    assertions run, and once it is given back the heap is the one the two
    assignments make of the heap of the caller. *)
Lemma AddInterface_call_run this other s t ot fuel :
  this <> other ->
  heap s !! this = Some t -> heap s !! other = Some ot ->
  m_disposed t = false -> m_disposed ot = false ->
  m_count ot < 2 ^ 32 ->
  let ot1 := set_count (uint32 (m_count ot + 1)) ot in
  let s1 := mkState (<[other := ot1]> (heap s)) (trace s) in
  let s2 := mkState (<[other := set_next (m_next t) ot1]>
                       (<[this := set_next (m_next ot) t]> (heap s1))) (trace s) in
  let s3 := mkState (<[other := set_next (m_next t) ot]>
                       (<[this := set_next (m_next ot) t]> (heap s))) (trace s) in
  CheckLoose fuel this s1 = (Ret true, s1) ->
  CheckLoose fuel other s1 = (Ret true, s1) ->
  CheckLoose fuel this s2 = (Ret true, s2) ->
  CheckLoose fuel other s2 = (Ret true, s2) ->
  AddInterface_call fuel this other s
  = if m_count ot =? 0 then MaybeDelete fuel other s3 else (Ret tt, s3).
Proof.
  intros Hneq Ht Hot Hdt Hdo Hlt ot1 s1 s2 s3 Hc1 Hc2 Hc3 Hc4.
  assert (Ht1 : heap s1 !! this = Some t).
  { simpl. by rewrite lookup_insert_ne. }
  assert (Hot1 : heap s1 !! other = Some ot1).
  { simpl. by rewrite lookup_insert_eq. }
  unfold AddInterface_call.
  rewrite (bind_run _ _ _ _ _ (Ref_run other ot s Hot)). fold ot1 s1.
  rewrite (bind_run _ _ _ _ _
             (AddInterface_run this other s1 t ot1 fuel Hneq Ht1 Hot1 Hdt Hdo
                Hc1 Hc2 Hc3 Hc4)).
  assert (Hot2 : heap s2 !! other = Some (set_next (m_next t) ot1)).
  { simpl. by rewrite lookup_insert_eq. }
  unfold Unref.
  rewrite (bind_run _ _ _ _ _ (update_run other _ _ s2 Hot2)).
  assert (Hs3 : mkState (<[other := set_count
                              (uint32 (m_count (set_next (m_next t) ot1) + (2 ^ 32 - 1)))
                              (set_next (m_next t) ot1)]> (heap s2)) (trace s2) = s3).
  { unfold s3. simpl. f_equal. rewrite (uint32_ref_unref _ Hlt).
    apply map_eq. intros i.
    destruct (decide (i = other)) as [->|Hio].
    - rewrite !lookup_insert_eq. by destruct ot.
    - rewrite !(lookup_insert_ne _ other i) by done.
      destruct (decide (i = this)) as [->|Hit].
      + by rewrite !lookup_insert_eq.
      + rewrite !(lookup_insert_ne _ this i) by done.
        by rewrite lookup_insert_ne by done. }
  rewrite Hs3.
  assert (Hot3 : heap s3 !! other = Some (set_next (m_next t) ot)).
  { simpl. by rewrite lookup_insert_eq. }
  rewrite (bind_run _ _ _ _ _ (load_run other _ s3 Hot3)).
  change (m_count (set_next (m_next t) ot)) with (m_count ot).
  by destruct (m_count ot =? 0).
Qed.

(** C2. The call this->AddInterface (other) on two disjoint rings, no
    member disposed, leaves one ring: from the receiver come the members
    of the other ring in their order, closed by [other], then the rest of
    the receiver's ring in its order; no member is lost or met twice, and
    every count is what it was. The receiver's ring is live, as
    NS_ASSERT (CheckLoose ()) asks of it; the other ring need not be, since
    the parameter holds a reference on [other] while the assertions run.
    The counts sum below 2^32 with that reference. *)
Theorem AddInterface_splices_rings this other s la lb fuel :
  ring (heap s) this (this :: la) -> ring (heap s) other (other :: lb) ->
  (forall x, x ∈ this :: la -> x ∉ other :: lb) ->
  (forall m, m ∈ (this :: la) ++ (other :: lb) -> not_disposed (heap s) m) ->
  live (heap s) (this :: la) ->
  count_sum (heap s) ((this :: la) ++ (other :: lb)) + 1 < 2 ^ 32 ->
  (length la + length lb + 2 <= fuel)%nat ->
  exists s', AddInterface_call fuel this other s = (Ret tt, s') /\
    ring (heap s') this (this :: lb ++ other :: la) /\
    ring (heap s') other (other :: la ++ this :: lb) /\
    (forall p, count_of (heap s') p = count_of (heap s) p) /\
    (forall p, p <> this -> p <> other -> heap s' !! p = heap s !! p) /\
    trace s' = trace s.
Proof.
  intros Hra Hrb Hdis Hnd Hla Hwrap Hfuel.
  assert (Hneq : this <> other) by (intros ->; apply (Hdis other); by left).
  destruct (walk_lookup (heap s) _ _ _ this (proj1 (proj2 Hra))) as [t Ht]; [by left|].
  destruct (walk_lookup (heap s) _ _ _ other (proj1 (proj2 Hrb))) as [ot Hot]; [by left|].
  assert (Hdt : m_disposed t = false) by (apply (Hnd this); [set_solver | done]).
  assert (Hdo : m_disposed ot = false) by (apply (Hnd other); [set_solver | done]).
  rewrite count_sum_app in Hwrap.
  assert (Hco : count_of (heap s) other = m_count ot) by (unfold count_of; by rewrite Hot).
  pose proof (count_sum_member (heap s) (other :: lb) other ltac:(by left)) as Hle.
  assert (Hlt : m_count ot < 2 ^ 32) by lia.
  set (ot1 := set_count (uint32 (m_count ot + 1)) ot).
  set (h1 := <[other := ot1]> (heap s)).
  assert (Hc1 : m_count ot1 = m_count ot + 1).
  { unfold ot1. simpl. apply uint32_small. lia. }
  assert (Hra1 : ring h1 this (this :: la)).
  { by apply (ring_update (heap s) other ot ot1). }
  assert (Hrb1 : ring h1 other (other :: lb)).
  { by apply (ring_update (heap s) other ot ot1). }
  assert (Hsa1 : count_sum h1 (this :: la) = count_sum (heap s) (this :: la)).
  { apply count_sum_insert_notin. intros Hin. apply (Hdis other Hin). by left. }
  assert (Hsb1 : count_sum h1 (other :: lb) = count_sum (heap s) (other :: lb) + 1).
  { pose proof (count_sum_insert (heap s) other ot1 (other :: lb)
                  (proj1 (proj2 (proj2 Hrb))) ltac:(by left)) as Hins.
    fold h1 in Hins. lia. }
  assert (Ht1 : h1 !! this = Some t) by (unfold h1; by rewrite lookup_insert_ne).
  assert (Hot1 : h1 !! other = Some ot1) by (unfold h1; by rewrite lookup_insert_eq).
  destruct (splice_rings h1 this other t ot1 la lb Hra1 Hrb1 Hdis Ht1 Hot1)
    as (Hr1 & Hr2 & Hcount1).
  destruct (splice_rings (heap s) this other t ot la lb Hra Hrb Hdis Ht Hot)
    as (Hr1' & Hr2' & Hcount).
  set (s3 := mkState (<[other := set_next (m_next t) ot]>
                        (<[this := set_next (m_next ot) t]> (heap s))) (trace s)).
  assert (Hlive : forall h l, count_sum h l <> 0 -> count_sum h l < 2 ^ 32 -> live h l).
  { intros h l H0 H32. unfold live. by rewrite uint32_small. }
  pose proof (AddInterface_call_run this other s t ot fuel Hneq Ht Hot Hdt Hdo Hlt)
    as Hrun.
  cbv zeta in Hrun. fold ot1 h1 s3 in Hrun. simpl heap in Hrun. fold h1 in Hrun.
  exists s3. split.
  - rewrite Hrun.
    + destruct (m_count ot =? 0); [|done].
      destruct (live_nonzero _ _ Hla) as (m & Hm & Hc).
      apply (MaybeDelete_nonzero_run other s3 (other :: la ++ this :: lb) m fuel).
      * exact Hr2'.
      * simpl. rewrite length_app. simpl. lia.
      * set_solver.
      * unfold s3. simpl heap. by rewrite (Hcount m).
    + apply (CheckLoose_live this (mkState h1 (trace s)) _ fuel Hra1); [|simpl; lia].
      unfold live. simpl heap. rewrite Hsa1. exact Hla.
    + apply (CheckLoose_live other (mkState h1 (trace s)) _ fuel Hrb1); [|simpl; lia].
      apply Hlive; simpl heap; lia.
    + apply (CheckLoose_live this _ (this :: lb ++ other :: la) fuel);
        [exact Hr1 | | simpl; rewrite length_app; simpl; lia].
      simpl heap.
      assert (Hs : count_sum (<[other := set_next (m_next t) ot1]>
                                (<[this := set_next (m_next ot) t]> h1))
                     (this :: lb ++ other :: la)
                   = count_sum (heap s) (this :: la) + count_sum (heap s) (other :: lb) + 1).
      { rewrite (count_sum_agree h1) by exact Hcount1.
        simpl. rewrite count_sum_app. simpl. simpl in Hsa1, Hsb1. lia. }
      apply Hlive; lia.
    + apply (CheckLoose_live other _ (other :: la ++ this :: lb) fuel);
        [exact Hr2 | | simpl; rewrite length_app; simpl; lia].
      simpl heap.
      assert (Hs : count_sum (<[other := set_next (m_next t) ot1]>
                                (<[this := set_next (m_next ot) t]> h1))
                     (other :: la ++ this :: lb)
                   = count_sum (heap s) (this :: la) + count_sum (heap s) (other :: lb) + 1).
      { rewrite (count_sum_agree h1) by exact Hcount1.
        simpl. rewrite count_sum_app. simpl. simpl in Hsa1, Hsb1. lia. }
      apply Hlive; lia.
  - split; [exact Hr1'|]. split; [exact Hr2'|]. split; [exact Hcount|].
    split; [|done]. intros p H1 H2. simpl. by rewrite !lookup_insert_ne.
Qed.



Lemma ring_agree h h' a l :
  (forall x, x ∈ l -> h' !! x = h !! x) -> ring h a l -> ring h' a l.
Proof.
  intros Hag (Hne & Hp & Hnd & Hnull). split; [done|]. split; [|done].
  eapply walk_agree; [|exact Hp]. intros x Hx. left. by apply Hag.
Qed.

(** The heap that the two assignments of AddInterface leave when the
    argument is a member of the receiver's ring. *)
Lemma split_ring h this other t ot l1 l2 :
  ring h this (this :: l1 ++ other :: l2) ->
  h !! this = Some t -> h !! other = Some ot ->
  let h' := <[other := set_next (m_next t) ot]>
              (<[this := set_next (m_next ot) t]> h) in
  ring h' this (this :: l2) /\ ring h' other (other :: l1) /\
  (forall p, count_of h' p = count_of h p).
Proof.
  intros Hr Ht Hot h'.
  pose proof Hr as (_ & Hp & Hnd & Hnull).
  destruct Hp as [_ (t' & Ht' & Hp)]. rewrite Ht in Ht'. injection Ht' as <-.
  apply walk_split in Hp as (mid & Hp1 & Hp2).
  destruct Hp2 as [-> (ot' & Hot' & Hp2)]. rewrite Hot in Hot'. injection Hot' as <-.
  apply NoDup_cons in Hnd as [Hthis Hnd].
  apply NoDup_app in Hnd as (Hnd1 & Hdis & Hnd2).
  apply NoDup_cons in Hnd2 as [Hother Hnd2].
  assert (Hneq : this <> other) by (intros ->; apply Hthis; set_solver).
  assert (Hthis' : h' !! this = Some (set_next (m_next ot) t)).
  { unfold h'. rewrite lookup_insert_ne by done. by rewrite lookup_insert_eq. }
  assert (Hother' : h' !! other = Some (set_next (m_next t) ot)).
  { unfold h'. by rewrite lookup_insert_eq. }
  assert (Hframe : forall z, z <> this -> z <> other -> h' !! z = h !! z).
  { intros z H1 H2. unfold h'. by rewrite !lookup_insert_ne. }
  split; [|split].
  - split; [done|]. split; [|split].
    + split; [done|]. eexists. split; [exact Hthis'|]. simpl.
      eapply walk_agree; [|exact Hp2]. intros z Hz. left. apply Hframe.
      * intros ->. apply Hthis. set_solver.
      * intros ->. done.
    + apply NoDup_cons. split; [|done]. intros Hin. apply Hthis. set_solver.
    + intros Hin. apply Hnull. set_solver.
  - split; [done|]. split; [|split].
    + split; [done|]. eexists. split; [exact Hother'|]. simpl.
      eapply walk_agree; [|exact Hp1]. intros z Hz. left. apply Hframe.
      * intros ->. apply Hthis. set_solver.
      * intros ->. apply (Hdis other Hz). by left.
    + apply NoDup_cons. split; [|done]. intros Hin. apply (Hdis other Hin). by left.
    + intros Hin. apply Hnull. set_solver.
  - intros p. unfold count_of.
    destruct (decide (p = other)) as [->|H1]; [by rewrite Hother', Hot|].
    destruct (decide (p = this)) as [->|H2]; [by rewrite Hthis', Ht|].
    by rewrite Hframe.
Qed.

(** X12. The call this->AddInterface (other) on two different members of
    one ring cuts the ring in two: the receiver keeps the members that came
    after the argument, the argument keeps those that stood between the
    two. The receiver's part has to be live for the last assertions; the
    argument's part passes them on the reference of the parameter. When
    that reference is given back, the argument's part stays as it is if one
    of its counts is not zero, and is destroyed, member by member from the
    argument, if all are zero. *)
Theorem AddInterface_same_ring_splits this other s l1 l2 fuel :
  ring (heap s) this (this :: l1 ++ other :: l2) ->
  not_disposed (heap s) this -> not_disposed (heap s) other ->
  live (heap s) (this :: l2) ->
  count_sum (heap s) (this :: l1 ++ other :: l2) + 1 < 2 ^ 32 ->
  (length l1 + length l2 + 2 <= fuel)%nat ->
  exists s', AddInterface_call fuel this other s = (Ret tt, s') /\
    ring (heap s') this (this :: l2) /\
    (forall p, p ∈ this :: l2 -> count_of (heap s') p = count_of (heap s) p) /\
    (forall p, p <> this -> p ∉ other :: l1 -> heap s' !! p = heap s !! p) /\
    ((exists m, m ∈ other :: l1 /\ count_of (heap s) m <> 0) ->
       ring (heap s') other (other :: l1) /\
       (forall p, count_of (heap s') p = count_of (heap s) p) /\
       trace s' = trace s) /\
    ((forall m, m ∈ other :: l1 -> count_of (heap s) m = 0) ->
       (forall m, m ∈ other :: l1 -> heap s' !! m = None) /\
       trace s' = trace s ++ map EvDelete (other :: l1)).
Proof.
  intros Hr Hnt Hno Hl2 Hwrap Hfuel.
  pose proof Hr as (_ & Hp & Hnd & Hnull).
  destruct (walk_lookup (heap s) _ _ _ this Hp) as [t Ht]; [by left|].
  destruct (walk_lookup (heap s) _ _ _ other Hp) as [ot Hot]; [set_solver|].
  pose proof Hnd as Hnd'.
  apply NoDup_cons in Hnd' as [Hthis Hnd'].
  apply NoDup_app in Hnd' as (Hnd1 & Hdis & Hnd2).
  apply NoDup_cons in Hnd2 as [Hother Hnd2].
  assert (Hneq : this <> other) by (intros ->; apply Hthis; set_solver).
  assert (Hdt : m_disposed t = false) by by apply (Hnt t).
  assert (Hdo : m_disposed ot = false) by by apply (Hno ot).
  assert (Hco : count_of (heap s) other = m_count ot) by (unfold count_of; by rewrite Hot).
  assert (Hwhole : count_sum (heap s) (this :: l1 ++ other :: l2)
                   = count_sum (heap s) (this :: l2) + count_sum (heap s) (other :: l1)).
  { simpl. rewrite count_sum_app. simpl. lia. }
  pose proof (count_sum_member (heap s) (other :: l1) other ltac:(by left)) as Hle.
  assert (Hlt : m_count ot < 2 ^ 32) by lia.
  set (ot1 := set_count (uint32 (m_count ot + 1)) ot).
  set (h1 := <[other := ot1]> (heap s)).
  assert (Hc1 : m_count ot1 = m_count ot + 1).
  { unfold ot1. simpl. apply uint32_small. lia. }
  assert (Hr1 : ring h1 this (this :: l1 ++ other :: l2)).
  { by apply (ring_update (heap s) other ot ot1). }
  assert (Hs1 : count_sum h1 (this :: l1 ++ other :: l2)
                = count_sum (heap s) (this :: l1 ++ other :: l2) + 1).
  { pose proof (count_sum_insert (heap s) other ot1 (this :: l1 ++ other :: l2)
                  Hnd ltac:(set_solver)) as Hins.
    fold h1 in Hins. lia. }
  assert (Hs12 : count_sum h1 (this :: l2) = count_sum (heap s) (this :: l2)).
  { apply count_sum_insert_notin. intros Hin.
    apply elem_of_cons in Hin as [Hin|Hin]; [by symmetry in Hin | done]. }
  assert (Hs11 : count_sum h1 (other :: l1) = count_sum (heap s) (other :: l1) + 1).
  { rewrite Hwhole in Hs1. rewrite <- Hs12 in Hs1.
    replace (count_sum h1 (this :: l1 ++ other :: l2))
      with (count_sum h1 (this :: l2) + count_sum h1 (other :: l1)) in Hs1; [lia|].
    simpl. rewrite count_sum_app. simpl. lia. }
  assert (Ht1 : h1 !! this = Some t) by (unfold h1; by rewrite lookup_insert_ne).
  assert (Hot1 : h1 !! other = Some ot1) by (unfold h1; by rewrite lookup_insert_eq).
  destruct (split_ring h1 this other t ot1 l1 l2 Hr1 Ht1 Hot1) as (Hra1 & Hrb1 & Hcount1).
  destruct (split_ring (heap s) this other t ot l1 l2 Hr Ht Hot) as (Hra & Hrb & Hcount).
  set (s3 := mkState (<[other := set_next (m_next t) ot]>
                        (<[this := set_next (m_next ot) t]> (heap s))) (trace s)).
  assert (Hlive : forall h l, count_sum h l <> 0 -> count_sum h l < 2 ^ 32 -> live h l).
  { intros h l H0 H32. unfold live. by rewrite uint32_small. }
  assert (Hframe3 : forall p, p <> this -> p <> other -> heap s3 !! p = heap s !! p).
  { intros p H1 H2. simpl. by rewrite !lookup_insert_ne. }
  assert (Hrun : AddInterface_call fuel this other s
                 = if m_count ot =? 0 then MaybeDelete fuel other s3 else (Ret tt, s3)).
  { apply (AddInterface_call_run this other s t ot fuel Hneq Ht Hot Hdt Hdo Hlt).
    - apply (CheckLoose_live this (mkState h1 (trace s)) _ fuel Hr1).
      + apply Hlive; simpl heap; lia.
      + simpl. rewrite length_app. simpl. lia.
    - apply (CheckLoose_live other (mkState h1 (trace s)) (other :: l2 ++ this :: l1) fuel).
      + by apply ring_rotate.
      + unfold live. simpl heap. rewrite count_sum_rotate. apply Hlive; lia.
      + simpl. rewrite length_app. simpl. lia.
    - apply (CheckLoose_live this _ (this :: l2) fuel); [exact Hra1 | | simpl; lia].
      simpl heap. unfold live. rewrite (count_sum_agree h1) by exact Hcount1.
      rewrite Hs12. exact Hl2.
    - apply (CheckLoose_live other _ (other :: l1) fuel); [exact Hrb1 | | simpl; lia].
      simpl heap. apply Hlive; rewrite (count_sum_agree h1) by exact Hcount1; lia. }
  destruct (N.eq_dec (count_sum (heap s) (other :: l1)) 0) as [Hzero|Hnz].
  - assert (Hall : forall m, m ∈ other :: l1 -> count_of (heap s) m = 0).
    { intros m Hm. pose proof (count_sum_member (heap s) _ m Hm). lia. }
    destruct (MaybeDelete_zero_run other s3 (other :: l1) fuel) as (s' & Hdel & Htr & Hgone & Hkept).
    + exact Hrb.
    + simpl. lia.
    + intros m Hm. unfold s3. simpl heap. rewrite (Hcount m). by apply Hall.
    + assert (Hout : forall p, p ∈ this :: l2 -> p ∉ other :: l1).
      { intros p Hin Hin'.
        apply elem_of_cons in Hin as [->|Hin]; apply elem_of_cons in Hin' as [Hin'|Hin'].
        - done.
        - apply Hthis. set_solver.
        - subst p. done.
        - apply (Hdis p Hin'). by right. }
      exists s'. split.
      { rewrite Hrun. replace (m_count ot =? 0) with true; [done|].
        symmetry. apply N.eqb_eq. rewrite <- Hco. apply Hall. by left. }
      split.
      { apply (ring_agree (heap s3)); [|exact Hra].
        intros x Hx. apply Hkept. by apply Hout. }
      split.
      { intros p Hin. unfold count_of. rewrite (Hkept p (Hout p Hin)).
        apply (Hcount p). }
      split.
      { intros p H1 H2. rewrite (Hkept p H2). apply Hframe3; [done|].
        intros ->. apply H2. by left. }
      split.
      { intros (m & Hm & Hc). by rewrite (Hall m Hm) in Hc. }
      intros _. split; [exact Hgone | exact Htr].
  - destruct (count_sum_nonzero _ _ Hnz) as (m & Hm & Hc).
    exists s3. split.
    { rewrite Hrun. destruct (m_count ot =? 0); [|done].
      apply (MaybeDelete_nonzero_run other s3 (other :: l1) m fuel); try done.
      - simpl. lia.
      - unfold s3. simpl heap. by rewrite (Hcount m). }
    split; [exact Hra|].
    split; [intros p _; apply (Hcount p)|].
    split.
    { intros p H1 H2. apply Hframe3; [done|]. intros ->. apply H2. by left. }
    split; [done|].
    intros Hall. by rewrite (Hall m Hm) in Hc.
Qed.

(** X13. The call this->AddInterface (other) stops on an assertion when
    the receiver is disposed, when the argument is disposed, or when the
    ring of the receiver, the argument not being one of its members, has
    32-bit count sum zero. The state it stops in is that of the caller but
    for the reference the parameter holds on the argument. *)
Theorem AddInterface_stops this other s t ot fuel :
  heap s !! this = Some t -> heap s !! other = Some ot ->
  let s1 := mkState (<[other := set_count (uint32 (m_count ot + 1)) ot]> (heap s))
                    (trace s) in
  (m_disposed t = true ->
     AddInterface_call fuel this other s = (Stop AssertFailed, s1)) /\
  (m_disposed t = false -> m_disposed ot = true ->
     AddInterface_call fuel this other s = (Stop AssertFailed, s1)) /\
  (forall l, m_disposed t = false -> m_disposed ot = false ->
     ring (heap s) this l -> other ∉ l -> uint32 (count_sum (heap s) l) = 0 ->
     (length l <= fuel)%nat ->
     AddInterface_call fuel this other s = (Stop AssertFailed, s1)).
Proof.
  intros Ht Hot s1.
  assert (Ht1 : exists t1, heap s1 !! this = Some t1 /\ m_disposed t1 = m_disposed t).
  { destruct (decide (this = other)) as [->|Hneq].
    - exists (set_count (uint32 (m_count ot + 1)) ot). simpl.
      rewrite lookup_insert_eq. split; [done|]. rewrite Hot in Ht. by injection Ht as <-.
    - exists t. simpl. by rewrite lookup_insert_ne. }
  destruct Ht1 as (t1 & Ht1 & Hd1).
  assert (Hot1 : heap s1 !! other = Some (set_count (uint32 (m_count ot + 1)) ot)).
  { simpl. by rewrite lookup_insert_eq. }
  assert (Hstop : AddInterface fuel this other s1 = (Stop AssertFailed, s1) ->
                  AddInterface_call fuel this other s = (Stop AssertFailed, s1)).
  { intros Hbody. unfold AddInterface_call.
    rewrite (bind_run _ _ _ _ _ (Ref_run other ot s Hot)). fold s1.
    unfold bind. by rewrite Hbody. }
  split; [|split].
  - intros Hd. apply Hstop. unfold AddInterface.
    rewrite (bind_run _ _ _ _ _ (load_run this t1 s1 Ht1)), Hd1, Hd. done.
  - intros Hd Hdo. apply Hstop. unfold AddInterface.
    rewrite (bind_run _ _ _ _ _ (load_run this t1 s1 Ht1)), Hd1, Hd. simpl negb.
    rewrite (bind_run _ _ _ _ _ (assert_run s1)).
    rewrite (bind_run _ _ _ _ _ (load_run other _ s1 Hot1)).
    change (m_disposed (set_count (uint32 (m_count ot + 1)) ot)) with (m_disposed ot).
    rewrite Hdo. done.
  - intros l Hd Hdo Hr Hnotin Hz Hfuel. apply Hstop. unfold AddInterface.
    rewrite (bind_run _ _ _ _ _ (load_run this t1 s1 Ht1)), Hd1, Hd. simpl negb.
    rewrite (bind_run _ _ _ _ _ (assert_run s1)).
    rewrite (bind_run _ _ _ _ _ (load_run other _ s1 Hot1)).
    change (m_disposed (set_count (uint32 (m_count ot + 1)) ot)) with (m_disposed ot).
    rewrite Hdo. simpl negb.
    rewrite (bind_run _ _ _ _ _ (assert_run s1)).
    assert (Hr1 : ring (heap s1) this l).
    { apply (ring_agree (heap s)); [|exact Hr]. intros x Hx. simpl.
      rewrite lookup_insert_ne; [done|]. by intros ->. }
    assert (Hc : CheckLoose fuel this s1 = (Ret false, s1)).
    { rewrite (CheckLoose_spec this s1 l fuel Hr1 Hfuel). simpl heap.
      rewrite (count_sum_insert_notin _ _ _ _ Hnotin). by rewrite Hz. }
    by rewrite (bind_run _ _ _ _ _ Hc).
Qed.

(** ** Queries after a merge, and what a query reads *)





Lemma walk_parents_reads_no_state iid : forall fuel cur,
  exists r, forall s, walk_parents E fuel iid cur s = (r, s).
Proof.
  induction fuel as [|fuel IH]; intros cur; simpl.
  - destruct (negb (cur =? iid) && negb (cur =? Object_iid E)); by eexists.
  - destruct (negb (cur =? iid) && negb (cur =? Object_iid E)); [|by eexists].
    unfold bind, LookupParent, NS_ASSERT, ret, stop.
    destruct (cur <? N.of_nat (length (m_parents (iid_tree E)))); [|by eexists].
    destruct (m_parents (iid_tree E) !! N.to_nat cur) as [p|]; [|by eexists].
    apply IH.
Qed.

Lemma CheckLoose_loop_same_links h1 h2 tr1 tr2 this :
  same_links h1 h2 -> forall fuel cur acc,
  exists r, CheckLoose_loop fuel this cur acc (mkState h1 tr1) = (r, mkState h1 tr1) /\
            CheckLoose_loop fuel this cur acc (mkState h2 tr2) = (r, mkState h2 tr2).
Proof.
  intros Hs. induction fuel as [|fuel IH]; intros cur acc; simpl; [by eexists|].
  unfold bind, load. simpl. specialize (Hs cur).
  destruct (h1 !! cur) as [o1|], (h2 !! cur) as [o2|]; try done; [|by eexists].
  destruct Hs as (Hc & _ & Hn). rewrite Hc, Hn.
  destruct (ptr_eqb (m_next o2) this); [by eexists | apply IH].
Qed.

Lemma DoQueryInterface_loop_same_links h1 h2 tr1 tr2 this iid :
  same_links h1 h2 -> forall fuel cur,
  exists r, DoQueryInterface_loop E fuel this cur iid (mkState h1 tr1)
            = (r, mkState h1 tr1) /\
            DoQueryInterface_loop E fuel this cur iid (mkState h2 tr2)
            = (r, mkState h2 tr2).
Proof.
  intros Hs. induction fuel as [|fuel IH]; intros cur; simpl; [by eexists|].
  unfold bind, NS_ASSERT, load, ret. simpl.
  destruct (negb (ptr_eqb cur null)); [|by eexists].
  cbn [heap]. specialize (Hs cur).
  destruct (h1 !! cur) as [o1|], (h2 !! cur) as [o2|]; try done; [|by eexists].
  destruct Hs as (_ & Hi & Hn). rewrite Hi, Hn.
  destruct (walk_parents_reads_no_state iid fuel (m_iid o2)) as (r & Hw).
  rewrite !Hw. destruct r as [c|e]; [|by eexists].
  destruct (c =? iid); [by eexists|].
  destruct (ptr_eqb (m_next o2) this); [by eexists | apply IH].
Qed.

Lemma DoQueryInterface_same_links h1 h2 tr1 tr2 this iid fuel :
  same_links h1 h2 ->
  exists r, DoQueryInterface E fuel this iid (mkState h1 tr1) = (r, mkState h1 tr1) /\
            DoQueryInterface E fuel this iid (mkState h2 tr2) = (r, mkState h2 tr2).
Proof.
  intros Hs. unfold DoQueryInterface, CheckLoose.
  destruct (CheckLoose_loop_same_links h1 h2 tr1 tr2 this Hs fuel this 0)
    as (c & Hc1 & Hc2).
  destruct (DoQueryInterface_loop_same_links h1 h2 tr1 tr2 this iid Hs fuel this)
    as (q & Hq1 & Hq2).
  unfold bind, ret, NS_ASSERT. rewrite Hc1, Hc2.
  destruct c as [n|e]; [|by eexists].
  destruct (0 <? n); [|by eexists]. rewrite Hq1, Hq2.
  destruct q; by eexists.
Qed.

(** X15. What DoQueryInterface returns depends on m_count, m_iid and
    m_next only: on two heaps that agree on these it gives the same
    outcome for every receiver, identifier and fuel, be it a member, null,
    a failed assertion or an invalid access, whatever the disposed and
    collecting flags are. *)
Theorem DoQueryInterface_ignores_flags h1 h2 tr1 tr2 this iid fuel :
  same_links h1 h2 ->
  fst (DoQueryInterface E fuel this iid (mkState h1 tr1))
  = fst (DoQueryInterface E fuel this iid (mkState h2 tr2)).
Proof.
  intros Hs.
  destruct (DoQueryInterface_same_links h1 h2 tr1 tr2 this iid fuel Hs) as (r & H1 & H2).
  by rewrite H1, H2.
Qed.

(** ** Further properties of Dispose and MaybeDelete *)

(** X16. A completed Dispose changes no count, type or link: a query on
    any member for any identifier gives afterwards what it gave before. *)
Theorem Dispose_then_query_unchanged this s l fuel :
  ring (heap s) this l -> (length l <= fuel)%nat ->
  (forall m, m ∈ l -> not_disposed (heap s) m) ->
  exists s', Dispose fuel this s = (Ret tt, s') /\
    same_links (heap s) (heap s') /\
    forall m iid fuel',
      fst (DoQueryInterface E fuel' m iid s') = fst (DoQueryInterface E fuel' m iid s).
Proof.
  intros Hr Hfuel Hnot. pose proof Hr as (Hne & Hp & Hnd & Hnull).
  destruct (Dispose_loop_spec this l this s fuel) as (s' & Hrun & Htr & Hin & Hout);
    try done.
  { by eapply ring_tail_notin. }
  assert (Hs : same_links (heap s) (heap s')).
  { intros p. destruct (decide (p ∈ l)) as [Hpl|Hpl].
    - destruct (Hin p Hpl) as (o & Ho & Ho'). by rewrite Ho, Ho'.
    - rewrite (Hout p Hpl). by destruct (heap s !! p). }
  exists s'. split; [done|]. split; [done|]. intros m iid fuel'.
  destruct s as [h tr], s' as [h' tr']. simpl in Hs.
  destruct (DoQueryInterface_same_links h h' tr tr' m iid fuel' Hs) as (r & H1 & H2).
  by rewrite H1, H2.
Qed.

Lemma Dispose_loop_partial this m post pre : forall cur s fuel,
  walk (heap s) cur (pre ++ m :: post) this ->
  this ∉ tail (pre ++ m :: post) -> null ∉ pre ++ m :: post ->
  NoDup (pre ++ m :: post) ->
  (forall x, x ∈ pre -> not_disposed (heap s) x) ->
  is_disposed (heap s) m ->
  (length pre < fuel)%nat ->
  exists s', Dispose_loop fuel this cur s = (Stop AssertFailed, s') /\
    trace s' = trace s ++ map EvDoDispose pre /\
    (forall x, x ∈ pre -> exists o, heap s !! x = Some o /\
                                    heap s' !! x = Some (set_disposed true o)) /\
    (forall p, p ∉ pre -> heap s' !! p = heap s !! p).
Proof.
  induction pre as [|x pre IH]; intros cur s fuel Hp Hnotin Hnull Hnd Hnot Hdm Hfuel.
  - destruct fuel as [|fuel]; [lia|]. simpl in *.
    destruct Hp as [-> (o & Ho & _)]. destruct Hdm as (o' & Ho' & Hd').
    rewrite Ho in Ho'. injection Ho' as <-.
    unfold DoDispose. mstep.
    rewrite ptr_eqb_neq by (intros ->; apply Hnull; by left).
    simpl. rewrite Ho, Hd'. simpl. exists s. split; [done|].
    split; [by rewrite app_nil_r|]. split; [|done].
    intros y Hy. by apply elem_of_nil in Hy.
  - destruct fuel as [|fuel]; [simpl in Hfuel; lia|].
    simpl in Hp. destruct Hp as [-> (o & Ho & Hp)].
    simpl in Hnd. apply NoDup_cons in Hnd as [Hxl Hnd].
    assert (Hdx : m_disposed o = false) by (apply (Hnot x); [by left | done]).
    simpl. unfold DoDispose. mstep.
    rewrite ptr_eqb_neq by (intros ->; apply Hnull; by left).
    simpl. rewrite Ho, Hdx. simpl. rewrite Ho, Hdx. simpl. rewrite Ho. simpl.
    rewrite lookup_insert_eq. simpl.
    set (s1 := mkState (<[x:=set_disposed true o]> (heap s)) (trace s ++ [EvDoDispose x])).
    assert (Hhead : exists y rest, pre ++ m :: post = y :: rest).
    { destruct pre; simpl; eauto. }
    destruct Hhead as (y & rest & Hyr).
    assert (Hy : m_next o = y).
    { rewrite Hyr in Hp. by apply walk_head in Hp. }
    rewrite ptr_eqb_neq.
    2:{ intros Heq. apply Hnotin. simpl. rewrite Hyr, <- Heq, Hy. by left. }
    assert (Hframe : forall z, z ∈ pre ++ m :: post -> heap s1 !! z = heap s !! z).
    { intros z Hz. simpl. rewrite lookup_insert_ne; [done|]. intros ->. done. }
    destruct (IH (m_next o) s1 fuel) as (s' & Hrun & Htr & Hin & Hout); try done.
    + eapply walk_agree; [|exact Hp]. intros z Hz. left. by apply Hframe.
    + intros Hin. apply Hnotin. simpl. rewrite Hyr. right.
      rewrite Hyr in Hin. simpl in Hin. done.
    + intros Hin. apply Hnull. by right.
    + intros z Hz o' Ho'. rewrite Hframe in Ho' by set_solver.
      apply (Hnot z); [by right | done].
    + destruct Hdm as (om & Hom & Hd). exists om. split; [|done].
      rewrite Hframe by set_solver. done.
    + simpl in Hfuel. lia.
    + exists s'. split; [done|]. split; [|split].
      * rewrite Htr. simpl. by rewrite <- app_assoc.
      * intros z Hz. apply elem_of_cons in Hz as [->|Hz].
        -- exists o. split; [done|]. rewrite Hout by set_solver. simpl.
           by rewrite lookup_insert_eq.
        -- destruct (Hin z Hz) as (oz & Hoz & Hoz'). exists oz.
           split; [|done]. rewrite <- Hframe by set_solver. done.
      * intros p Hp'. rewrite Hout by set_solver. simpl.
        rewrite lookup_insert_ne; [done|]. set_solver.
Qed.

(** X17. Dispose is not all or nothing: when the first disposed member
    stands after others that are not, the hooks of those others have run
    and they are marked disposed by the time the assertion stops the walk;
    the members from the disposed one on are untouched. *)
Theorem Dispose_stops_midway this s pre m post fuel :
  ring (heap s) this (pre ++ m :: post) ->
  (forall x, x ∈ pre -> not_disposed (heap s) x) ->
  is_disposed (heap s) m ->
  (length pre < fuel)%nat ->
  exists s', Dispose fuel this s = (Stop AssertFailed, s') /\
    trace s' = trace s ++ map EvDoDispose pre /\
    (forall x, x ∈ pre -> exists o, heap s !! x = Some o /\
                                    heap s' !! x = Some (set_disposed true o)) /\
    (forall p, p ∉ pre -> heap s' !! p = heap s !! p).
Proof.
  intros Hr Hnot Hdm Hfuel. pose proof Hr as (Hne & Hp & Hnd & Hnull).
  apply (Dispose_loop_partial this m post pre this s fuel); try done.
  by eapply ring_tail_notin.
Qed.

(** X18. What MaybeDelete destroys does not depend on the member it is
    called on: on a ring with all counts zero, the call on any member
    leaves the same heap, and destroys the members in ring order from
    that member. *)
Theorem MaybeDelete_member_independent this s l m fuel :
  ring (heap s) this l -> m ∈ l -> (length l <= fuel)%nat ->
  (forall x, x ∈ l -> count_of (heap s) x = 0) ->
  exists s1 s2 l',
    MaybeDelete fuel this s = (Ret tt, s1) /\
    MaybeDelete fuel m s = (Ret tt, s2) /\
    heap s1 = heap s2 /\
    ring (heap s) m l' /\ l' ≡ₚ l /\
    trace s2 = trace s ++ map EvDelete l'.
Proof.
  intros Hr Hm Hfuel Hzero.
  destruct (MaybeDelete_zero_run this s l fuel Hr Hfuel Hzero)
    as (s1 & Hrun1 & _ & Hin1 & Hout1).
  destruct (ring_from_member (heap s) this l m Hr Hm) as (l' & Hr' & Hlen & _ & Hmem).
  destruct (MaybeDelete_zero_run m s l' fuel Hr') as (s2 & Hrun2 & Htr2 & Hin2 & Hout2).
  { lia. }
  { intros x Hx. apply Hzero. by apply Hmem. }
  exists s1, s2, l'. split; [done|]. split; [done|]. split; [|split; [done|split; [|done]]].
  - apply map_eq. intros p. destruct (decide (p ∈ l)) as [Hp|Hp].
    + rewrite Hin1 by done. rewrite Hin2; [done|]. by apply Hmem.
    + rewrite Hout1 by done. rewrite Hout2; [done|]. intros Hp'. apply Hp. by apply Hmem.
  - apply NoDup_Permutation; [apply Hr' | apply Hr | done].
Qed.

(** ** Further properties of the interface-selecting resolver *)

Lemma dollar_pos_nonzero_false element :
  dollar_pos_nonzero element = false <->
  exists rest, element = String "$"%char rest.
Proof.
  unfold dollar_pos_nonzero. destruct element as [|c rest].
  - simpl. split; [done | by intros (? & ?)].
  - change (String.index 0 "$" (String c rest))
      with (if (if ascii_dec "$" c then String.prefix "" rest else false)
            then Some 0%nat
            else match String.index 0 "$" rest with
                 | Some n => Some (S n)
                 | None => None
                 end).
    destruct (ascii_dec "$" c) as [<-|Hc].
    + replace (String.prefix "" rest) with true by (by destruct rest).
      split; [by eexists | done].
    + split.
      * destruct (String.index 0 "$" rest); done.
      * intros (r & Heq). congruence.
Qed.

Lemma ParseForInterface_no_selector r path s fuel :
  (forall rest, GetElement E path <> String "$"%char rest) ->
  ParseForInterface E fuel r path s = (Ret null, s).
Proof.
  intros Hno. unfold ParseForInterface.
  destruct (dollar_pos_nonzero (GetElement E path)) eqn:Hd; [done|].
  apply dollar_pos_nonzero_false in Hd as (rest & Hrest). by destruct (Hno rest).
Qed.


(** X19. element.find ("$") != 0 holds exactly when the element does not
    begin with '$', a '$' further on does not count; for such a path
    Connect and Disconnect return at once in any state, without looking up
    a name, asserting liveness or touching the ring. *)
Theorem path_without_selector_is_ignored r path s fuel :
  (forall rest, GetElement E path <> String "$"%char rest) ->
  (1 <= fuel)%nat ->
  dollar_pos_nonzero (GetElement E path) = true /\
  Resolver_Connect E fuel r path s = (Ret tt, s) /\
  Resolver_Disconnect E fuel r path s = (Ret tt, s).
Proof.
  intros Hno Hfuel. destruct fuel as [|fuel]; [lia|]. split.
  - destruct (dollar_pos_nonzero (GetElement E path)) eqn:Hd; [done|].
    apply dollar_pos_nonzero_false in Hd as (rest & Hrest). by destruct (Hno rest).
  - split; simpl;
      by rewrite (bind_run _ _ _ _ _ (ParseForInterface_no_selector r path s fuel Hno)).
Qed.

(** X20. A selector that names a type the name table does not hold, the
    table answering 0 or a value beyond 16 bits, is not ignored: Connect
    and Disconnect stop on the assertion of InterfaceId::LookupByName,
    whatever the ring. *)
Theorem unregistered_selector_stops r path name s fuel :
  GetElement E path = String "$"%char name ->
  LookupByName E name = 0 \/ 65535 < LookupByName E name ->
  (1 <= fuel)%nat ->
  Resolver_Connect E fuel r path s = (Stop AssertFailed, s) /\
  Resolver_Disconnect E fuel r path s = (Stop AssertFailed, s).
Proof.
  intros Hel Hbad Hfuel. destruct fuel as [|fuel]; [lia|].
  assert (Hparse : ParseForInterface E fuel r path s = (Stop AssertFailed, s)).
  { unfold ParseForInterface. rewrite Hel.
    replace (dollar_pos_nonzero (String "$" name)) with false
      by (symmetry; apply dollar_pos_nonzero_false; by eexists).
    replace (String.substring 1 (String.length (String "$" name) - 1) (String "$" name))
      with name by (simpl; rewrite Nat.sub_0_r; symmetry; apply substring_all).
    unfold InterfaceId_LookupByName.
    replace (negb (LookupByName E name =? 0) && (LookupByName E name <=? 65535))
      with false; [done|].
    symmetry. destruct Hbad as [Hz|Hbig].
    - rewrite Hz. done.
    - apply andb_false_iff. right. apply N.leb_gt. lia. }
  split; simpl; unfold bind; by rewrite Hparse.
Qed.


End Rings.

(** ** Attribute accessors *)

Section AccessorProperties.

Context {ObjectBase T Attribute V R : Type}.
Context {object_cast : Downcast ObjectBase T}.
Context {value_cast : Downcast Attribute V}.
Context {boxed : BoxedValue V R}.

Lemma Set_cases (a : AccessorHelper) (object : ObjectBase) (val : Attribute) :
  AccessorHelper_Set a object val =
  match down val, down object with
  | Some value, Some obj =>
      (has_setter a, put (snd (DoSet a obj value)) object)
  | _, _ => (false, object)
  end.
Proof.
  unfold AccessorHelper_Set. destruct (down val) as [value|]; [|done].
  destruct (down object) as [obj|]; [|done]. by destruct a.
Qed.

Lemma Get_cases (a : AccessorHelper) (object : ObjectBase) (val : Attribute) :
  AccessorHelper_Get a object val =
  match down val, down object with
  | Some value, Some obj =>
      (has_getter a, put (snd (DoGet a obj value)) val)
  | _, _ => (false, val)
  end.
Proof.
  unfold AccessorHelper_Get. destruct (down val) as [value|]; [|done].
  destruct (down object) as [obj|]; [|done]. by destruct a.
Qed.

Lemma DoSet_getter_only (a : AccessorHelper) (obj : T) (value : V) :
  has_setter a = false -> snd (DoSet a obj value) = obj.
Proof. by destruct a. Qed.

Lemma DoGet_setter_only (a : AccessorHelper) (obj : T) (value : V) :
  has_getter a = false -> snd (DoGet a obj value) = value.
Proof. by destruct a. Qed.

(** C8. Set returns true, having done the bound mutation on the object,
    exactly when both downcasts succeed and the accessor has a setter or a
    member; when a downcast fails or the accessor is getter-only it returns
    false and the object is as before. Get is the same with the box in
    place of the object and setter-only in place of getter-only. The last
    part names the mutation class by class, once both casts have
    succeeded: the member is assigned, or the setter called, with the
    converted content of the box; the box is set to the member, or to what
    the getter returns. *)
Theorem accessor_dispatch (a : AccessorHelper) (object : ObjectBase) (val : Attribute) :
  put_same ObjectBase T object_cast -> put_same Attribute V value_cast ->
  (fst (AccessorHelper_Set a object val) = true <->
     is_Some (down val) /\ is_Some (down object) /\ has_setter a = true) /\
  (fst (AccessorHelper_Set a object val) = true ->
     exists obj value, down object = Some obj /\ down val = Some value /\
       AccessorHelper_Set a object val = (true, put (snd (DoSet a obj value)) object)) /\
  (fst (AccessorHelper_Set a object val) = false ->
     snd (AccessorHelper_Set a object val) = object) /\
  (fst (AccessorHelper_Get a object val) = true <->
     is_Some (down val) /\ is_Some (down object) /\ has_getter a = true) /\
  (fst (AccessorHelper_Get a object val) = true ->
     exists obj value, down object = Some obj /\ down val = Some value /\
       AccessorHelper_Get a object val = (true, put (snd (DoGet a obj value)) val)) /\
  (fst (AccessorHelper_Get a object val) = false ->
     snd (AccessorHelper_Get a object val) = val) /\
  (forall obj value, down object = Some obj -> down val = Some value ->
     match a with
     | MemberVariable memberVariable to_U of_U =>
         AccessorHelper_Set (MemberVariable memberVariable to_U of_U) object val
         = (true, put (field_set (to_U (value_Get value)) obj) object) /\
         AccessorHelper_Get (MemberVariable memberVariable to_U of_U) object val
         = (true, put (value_Set (of_U (field_get obj)) value) val)
     | MemberMethodGetter getter of_U =>
         AccessorHelper_Set (MemberMethodGetter getter of_U) object val
         = (false, object) /\
         AccessorHelper_Get (MemberMethodGetter getter of_U) object val
         = (true, put (value_Set (of_U (getter obj)) value) val)
     | MemberMethodSetter setter to_U =>
         AccessorHelper_Set (MemberMethodSetter setter to_U) object val
         = (true, put (setter (to_U (value_Get value)) obj) object) /\
         AccessorHelper_Get (MemberMethodSetter setter to_U) object val
         = (false, val)
     | MemberMethodSetterGetter setter getter to_U of_W =>
         AccessorHelper_Set (MemberMethodSetterGetter setter getter to_U of_W) object val
         = (true, put (setter (to_U (value_Get value)) obj) object) /\
         AccessorHelper_Get (MemberMethodSetterGetter setter getter to_U of_W) object val
         = (true, put (value_Set (of_W (getter obj)) value) val)
     end).
Proof.
  intros Hobj Hval.
  assert (Hclass : forall obj value, down object = Some obj -> down val = Some value ->
     match a with
     | MemberVariable memberVariable to_U of_U =>
         AccessorHelper_Set (MemberVariable memberVariable to_U of_U) object val
         = (true, put (field_set (to_U (value_Get value)) obj) object) /\
         AccessorHelper_Get (MemberVariable memberVariable to_U of_U) object val
         = (true, put (value_Set (of_U (field_get obj)) value) val)
     | MemberMethodGetter getter of_U =>
         AccessorHelper_Set (MemberMethodGetter getter of_U) object val
         = (false, object) /\
         AccessorHelper_Get (MemberMethodGetter getter of_U) object val
         = (true, put (value_Set (of_U (getter obj)) value) val)
     | MemberMethodSetter setter to_U =>
         AccessorHelper_Set (MemberMethodSetter setter to_U) object val
         = (true, put (setter (to_U (value_Get value)) obj) object) /\
         AccessorHelper_Get (MemberMethodSetter setter to_U) object val
         = (false, val)
     | MemberMethodSetterGetter setter getter to_U of_W =>
         AccessorHelper_Set (MemberMethodSetterGetter setter getter to_U of_W) object val
         = (true, put (setter (to_U (value_Get value)) obj) object) /\
         AccessorHelper_Get (MemberMethodSetterGetter setter getter to_U of_W) object val
         = (true, put (value_Set (of_W (getter obj)) value) val)
     end).
  { intros obj value Ho Hv. unfold AccessorHelper_Set, AccessorHelper_Get.
    destruct a; rewrite Hv, Ho; simpl; split; try reflexivity.
    - f_equal. by apply Hobj.
    - f_equal. by apply Hval. }
  rewrite Set_cases, Get_cases.
  destruct (down val) as [value|] eqn:Hv; destruct (down object) as [obj|] eqn:Ho; simpl.
  - repeat split; try (by eauto).
    + naive_solver.
    + intros Hs. exists obj, value. by rewrite Hs.
    + intros Hs. rewrite (DoSet_getter_only a obj value Hs). by apply Hobj.
    + naive_solver.
    + intros Hg. exists obj, value. by rewrite Hg.
    + intros Hg. rewrite (DoGet_setter_only a obj value Hg). by apply Hval.
  - repeat split; try done; intros (_ & [? ?] & _); done.
  - repeat split; try done; intros ([? ?] & _); done.
  - repeat split; try done; intros ([? ?] & _); done.
Qed.

(** C9. For an accessor bound to a data member, an object of the owner
    type and boxes of the value type: when the conversions and the box
    lose nothing on the value stored, Set followed by Get succeeds and
    leaves in the second box the value of the first. *)
Theorem member_variable_round_trip {U : Type} (memberVariable : Field T U)
    (to_U : R -> U) (of_U : U -> R)
    (object : ObjectBase) (obj : T) (val outBox : Attribute) (v w : V) :
  down_after_put ObjectBase T object_cast ->
  down_after_put Attribute V value_cast ->
  (forall (u : U) (x : T), field_get (field_set u x) = u) ->
  down object = Some obj -> down val = Some v -> down outBox = Some w ->
  of_U (to_U (value_Get v)) = value_Get v ->
  value_Get (value_Set (value_Get v) w) = value_Get v ->
  let a := MemberVariable memberVariable to_U of_U in
  exists object' out' w',
    AccessorHelper_Set a object val = (true, object') /\
    AccessorHelper_Get a object' outBox = (true, out') /\
    down out' = Some w' /\ value_Get w' = value_Get v.
Proof.
  intros Hobj Hval Hfield Ho Hv Hw Hconv Hbox a.
  exists (put (field_set (to_U (value_Get v)) obj) object).
  exists (put (value_Set (value_Get v) w) outBox).
  exists (value_Set (value_Get v) w).
  split; [|split; [|split]].
  - unfold AccessorHelper_Set. by rewrite Hv, Ho.
  - unfold AccessorHelper_Get. rewrite Hw, (Hobj object obj _ Ho). simpl.
    by rewrite Hfield, Hconv.
  - by apply (Hval outBox w).
  - exact Hbox.
Qed.

End AccessorProperties.

Lemma accessor_dispatch_witness :
  AccessorHelper_Set (MemberMethodSetterGetter SetValue GetValue to_uint16 (fun w : N => w))
    (IsSample (mkSample 7 "n0")) (IntegerBox 65545)
  = (true, IsSample (mkSample 9 "n0")) /\
  AccessorHelper_Get (MemberMethodSetterGetter SetValue GetValue to_uint16 (fun w : N => w))
    (IsSample (mkSample 7 "n0")) (IntegerBox 65545)
  = (true, IntegerBox 7) /\
  AccessorHelper_Set (MemberMethodSetter SetValue to_uint16) (IsSample (mkSample 7 "n0"))
    (StringBox "nine")
  = (false, IsSample (mkSample 7 "n0")) /\
  AccessorHelper_Set (MemberMethodGetter GetValue (fun u : N => u))
    (IsSample (mkSample 7 "n0")) (IntegerBox 9)
  = (false, IsSample (mkSample 7 "n0")).
Proof.
  assert (Hobj : put_same SomeObject Sample Sample_cast).
  { intros [x|n] d H; simpl in *; [by injection H as -> | discriminate]. }
  assert (Hval : put_same SomeAttribute N Integer_cast).
  { intros [n|x] d H; simpl in *; [by injection H as -> | discriminate]. }
  split; [|split; [|split]].
  - destruct (@accessor_dispatch SomeObject Sample SomeAttribute N N
                Sample_cast Integer_cast Integer_value
                (MemberMethodSetterGetter SetValue GetValue to_uint16 (fun w : N => w))
                (IsSample (mkSample 7 "n0")) (IntegerBox 65545) Hobj Hval)
      as (_ & _ & _ & _ & _ & _ & Hclass).
    destruct (Hclass (mkSample 7 "n0") 65545 eq_refl eq_refl) as [Hset _].
    exact Hset.
  - destruct (@accessor_dispatch SomeObject Sample SomeAttribute N N
                Sample_cast Integer_cast Integer_value
                (MemberMethodSetterGetter SetValue GetValue to_uint16 (fun w : N => w))
                (IsSample (mkSample 7 "n0")) (IntegerBox 65545) Hobj Hval)
      as (_ & _ & _ & _ & _ & _ & Hclass).
    destruct (Hclass (mkSample 7 "n0") 65545 eq_refl eq_refl) as [_ Hget].
    exact Hget.
  - destruct (@accessor_dispatch SomeObject Sample SomeAttribute N N
                Sample_cast Integer_cast Integer_value
                (MemberMethodSetter SetValue to_uint16)
                (IsSample (mkSample 7 "n0")) (StringBox "nine") Hobj Hval)
      as (_ & _ & Hs & _).
    apply injective_projections; [reflexivity | by apply Hs].
  - destruct (@accessor_dispatch SomeObject Sample SomeAttribute N N
                Sample_cast Integer_cast Integer_value
                (MemberMethodGetter GetValue (fun u : N => u))
                (IsSample (mkSample 7 "n0")) (IntegerBox 9) Hobj Hval)
      as (_ & _ & Hs & _).
    apply injective_projections; [reflexivity | by apply Hs].
Defined.

Lemma member_variable_round_trip_witness :
  exists object' out' w',
    AccessorHelper_Set (MemberVariable Sample_m_value to_uint16 (fun u : N => u))
      (IsSample (mkSample 7 "n0")) (IntegerBox 42) = (true, object') /\
    AccessorHelper_Get (MemberVariable Sample_m_value to_uint16 (fun u : N => u))
      object' (IntegerBox 0) = (true, out') /\
    down out' = Some w' /\ w' = 42.
Proof.
  apply (@member_variable_round_trip SomeObject Sample SomeAttribute N N
           Sample_cast Integer_cast Integer_value N
           Sample_m_value to_uint16 (fun u : N => u)
           (IsSample (mkSample 7 "n0")) (mkSample 7 "n0")
           (IntegerBox 42) (IntegerBox 0) 42 0).
  - intros [x|n] d d' H; simpl in *; [reflexivity | discriminate].
  - intros [n|x] d d' H; simpl in *; [reflexivity | discriminate].
  - reflexivity.
  - reflexivity.
  - reflexivity.
  - reflexivity.
  - reflexivity.
  - reflexivity.
Defined.

(** ** The self-test objects are well formed *)

Ltac solve_walk :=
  simpl; repeat (split; [reflexivity|]; eexists; split; [reflexivity|]; simpl);
  reflexivity.

Ltac solve_ring :=
  split; [discriminate|]; split; [solve_walk|]; split; compute_done.

Ltac solve_ancestry :=
  repeat first
    [ exact (ancestry_root test_env)
    | eapply (ancestry_step test_env); [discriminate | reflexivity |] ].

Ltac solve_depth :=
  eexists; eexists; split; [reflexivity|]; split; [solve_ancestry | simpl; lia].

(** The assertions of ObjectTest::RunTests on QueryInterface, AddInterface
    and TraceConnect, run on the model. *)
Example test_single_BaseA :
  DoQueryInterface test_env 4 1%nat BaseA_iid (mkState (heap_one BaseA_iid) [])
  = (Ret 1%nat, mkState (heap_one BaseA_iid) []) /\
  DoQueryInterface test_env 4 1%nat DerivedA_iid (mkState (heap_one BaseA_iid) [])
  = (Ret null, mkState (heap_one BaseA_iid) []).
Proof. split; reflexivity. Qed.

Example test_single_DerivedA :
  DoQueryInterface test_env 4 1%nat BaseA_iid (mkState (heap_one DerivedA_iid) [])
  = (Ret 1%nat, mkState (heap_one DerivedA_iid) []) /\
  DoQueryInterface test_env 4 1%nat DerivedA_iid (mkState (heap_one DerivedA_iid) [])
  = (Ret 1%nat, mkState (heap_one DerivedA_iid) []).
Proof. split; reflexivity. Qed.

Example test_AddInterface :
  AddInterface 4 1%nat 2%nat (mkState heap_two []) = (Ret tt, mkState heap_AB []).
Proof. vm_compute. reflexivity. Qed.

(** The same call with the reference of its parameter; and the call that
    cuts baseA, to which no handle refers any more, off the ring of baseB:
    when the parameter gives its reference back baseA is destroyed. *)
Example test_AddInterface_call :
  AddInterface_call 4 1%nat 2%nat (mkState heap_two []) = (Ret tt, mkState heap_AB []) /\
  AddInterface_call 4 2%nat 1%nat (mkState heap_A0B1 [])
  = (Ret tt, mkState (<[2%nat := CreateObject test_env 2 BaseB_iid]> ∅)
                     [EvDelete 1%nat]).
Proof. split; vm_compute; reflexivity. Qed.

Example test_aggregate_queries :
  let s := mkState heap_AB [] in
  DoQueryInterface test_env 4 1%nat BaseA_iid s = (Ret 1%nat, s) /\
  DoQueryInterface test_env 4 1%nat DerivedA_iid s = (Ret null, s) /\
  DoQueryInterface test_env 4 1%nat BaseB_iid s = (Ret 2%nat, s) /\
  DoQueryInterface test_env 4 1%nat DerivedB_iid s = (Ret null, s) /\
  DoQueryInterface test_env 4 2%nat BaseB_iid s = (Ret 2%nat, s) /\
  DoQueryInterface test_env 4 2%nat BaseA_iid s = (Ret 1%nat, s).
Proof. repeat split; reflexivity. Qed.

Example test_TraceConnect_selector :
  TraceConnect test_env 6 1%nat "/$BaseB/baseb-x" (mkState heap_AB [])
  = (Ret tt, mkState heap_AB [EvConnect 2%nat "/baseb-x"]) /\
  TraceDisconnect test_env 6 1%nat "/$BaseB/baseb-x" (mkState heap_AB [])
  = (Ret tt, mkState heap_AB [EvDisconnect 2%nat "/baseb-x"]) /\
  TraceConnect test_env 6 2%nat "/$BaseA/basea-x" (mkState heap_AB [])
  = (Ret tt, mkState heap_AB [EvConnect 1%nat "/basea-x"]).
Proof. repeat split; reflexivity. Qed.

Example test_tree_parents :
  m_parents test_tree = [0; 1; 1; 2; 1; 4].
Proof. reflexivity. Qed.

Ltac solve_chain :=
  eexists; split; [reflexivity|]; split; [solve_ancestry | simpl; lia].

Lemma MaybeDelete_all_or_nothing_witness :
  (exists s', MaybeDelete 2 1%nat (mkState heap_A0B0 []) = (Ret tt, s') /\
     trace s' = [EvDelete 1%nat; EvDelete 2%nat] /\
     (forall m : nat, m ∈ [1%nat; 2%nat] -> heap s' !! m = None) /\
     (forall p : nat, p ∉ [1%nat; 2%nat] -> heap s' !! p = heap_A0B0 !! p)) /\
  MaybeDelete 2 1%nat (mkState heap_A0B1 []) = (Ret tt, mkState heap_A0B1 []).
Proof.
  split.
  - apply (MaybeDelete_all_or_nothing 1%nat (mkState heap_A0B0 []) [1%nat; 2%nat] 2).
    + solve_ring.
    + simpl; lia.
    + intros m Hm. apply elem_of_cons in Hm as [->|Hm]; [reflexivity|].
      apply list_elem_of_singleton in Hm as ->. reflexivity.
  - apply (MaybeDelete_all_or_nothing 1%nat (mkState heap_A0B1 []) [1%nat; 2%nat] 2).
    + solve_ring.
    + simpl; lia.
    + exists 2%nat. split; [compute_done | vm_compute; discriminate].
Defined.

Lemma AddInterface_splices_rings_witness :
  exists s', AddInterface_call 5 1%nat 4%nat (mkState heap_three_and_two []) = (Ret tt, s') /\
    ring (heap s') 1%nat [1%nat; 5%nat; 4%nat; 2%nat; 3%nat] /\
    ring (heap s') 4%nat [4%nat; 2%nat; 3%nat; 1%nat; 5%nat] /\
    (forall p, count_of (heap s') p = count_of heap_three_and_two p) /\
    (forall p, p <> 1%nat -> p <> 4%nat -> heap s' !! p = heap_three_and_two !! p) /\
    trace s' = [].
Proof.
  apply (AddInterface_splices_rings 1%nat 4%nat (mkState heap_three_and_two [])
           [2%nat; 3%nat] [5%nat] 5).
  - solve_ring.
  - solve_ring.
  - intros x Hx. repeat (apply elem_of_cons in Hx as [->|Hx]; [compute_done|]).
    by apply elem_of_nil in Hx.
  - intros m Hm o Ho.
    repeat (apply elem_of_cons in Hm as [->|Hm];
            [vm_compute in Ho; by injection Ho as <-|]).
    by apply elem_of_nil in Hm.
  - vm_compute; discriminate.
  - vm_compute; reflexivity.
  - simpl; lia.
Defined.

Lemma Dispose_ring_once_witness :
  exists s', Dispose 3 2%nat (mkState heap_three []) = (Ret tt, s') /\
    trace s' = [EvDoDispose 2%nat; EvDoDispose 3%nat; EvDoDispose 1%nat] /\
    (forall m : nat, m ∈ [2%nat; 3%nat; 1%nat] ->
       exists o, heap_three !! m = Some o /\
                 heap s' !! m = Some (set_disposed true o)) /\
    (forall p : nat, p ∉ [2%nat; 3%nat; 1%nat] -> heap s' !! p = heap_three !! p) /\
    (forall m : nat, m ∈ [2%nat; 3%nat; 1%nat] ->
       Dispose 3 m s' = (Stop AssertFailed, s')).
Proof.
  apply (Dispose_ring_once 2%nat (mkState heap_three []) [2%nat; 3%nat; 1%nat] 3).
  - solve_ring.
  - simpl; lia.
  - intros m Hm o Ho. repeat (apply elem_of_cons in Hm as [->|Hm];
      [vm_compute in Ho; by injection Ho as <-|]).
    by apply elem_of_nil in Hm.
Defined.

Lemma enumeration_visits_other_members_witness :
  DoCollectSources test_env 7 1%nat "" (mkState heap_three [])
  = (Ret tt, mkState heap_three
       [EvCollectSources 2%nat "/$BaseB";
        EvCollectSources 3%nat "/$DerivedB";
        EvCollectSources 3%nat "/$BaseB"]) /\
  DoTraceAll 7 1%nat (mkState heap_three [])
  = (Ret tt, mkState heap_three [EvTraceAll 2%nat; EvTraceAll 3%nat]).
Proof.
  apply (enumeration_visits_other_members test_env 1%nat (mkState heap_three [])
           [1%nat; 2%nat; 3%nat] test_chain 2 "" 7).
  - solve_ring.
  - vm_compute; discriminate.
  - intros m Hm. repeat (apply elem_of_cons in Hm as [->|Hm]; [reflexivity|]).
    by apply elem_of_nil in Hm.
  - intros m Hm. simpl in Hm.
    repeat (apply elem_of_cons in Hm as [->|Hm]; [solve_chain|]).
    by apply elem_of_nil in Hm.
  - simpl; lia.
Defined.

(** C5 as stated fails: the receiver is a member of the ring and its type
    BaseA has a chain below the root, yet neither walk hands over to the
    receiver; DoTraceAll visits no chain and builds no path. *)
Lemma enumeration_skips_receiver :
  ring heap_AB 1%nat [1%nat; 2%nat] /\
  (exists o, heap_AB !! 1%nat = Some o /\ ancestry test_env (m_iid o) [BaseA_iid]) /\
  DoCollectSources test_env 7 1%nat "" (mkState heap_AB [])
  = (Ret tt, mkState heap_AB [EvCollectSources 2%nat "/$BaseB"]) /\
  (EvCollectSources 1%nat "/$BaseA"
     ∉ trace (snd (DoCollectSources test_env 7 1%nat "" (mkState heap_AB [])))) /\
  DoTraceAll 7 1%nat (mkState heap_AB [])
  = (Ret tt, mkState heap_AB [EvTraceAll 2%nat]).
Proof.
  split; [solve_ring|].
  split; [eexists; split; [reflexivity | solve_ancestry]|].
  split; [reflexivity|]. split; [|reflexivity].
  vm_compute. intros H. apply list_elem_of_singleton in H. discriminate.
Qed.

Lemma reentrancy_guard_witness :
  (DoCollectSources test_env 7 1%nat "" (mkState heap_AB_collecting [])
   = (Ret tt, mkState heap_AB_collecting []) /\
   DoTraceAll 7 1%nat (mkState heap_AB_collecting [])
   = (Ret tt, mkState heap_AB_collecting [])) /\
  (DoCollectSources test_env 7 1%nat "" (mkState heap_three [])
   = (Ret tt, mkState heap_three
        (collect_events test_env test_chain "" [1%nat; 2%nat; 3%nat])) /\
   DoTraceAll 7 1%nat (mkState heap_three [])
   = (Ret tt, mkState heap_three [EvTraceAll 2%nat; EvTraceAll 3%nat])).
Proof.
  split.
  - destruct (reentrancy_guard test_env 1%nat (mkState heap_AB_collecting [])
                [1%nat; 2%nat] test_chain 2 "" 7) as [Hbusy _].
    + solve_ring.
    + simpl; lia.
    + apply Hbusy. exists 2%nat. split; [compute_done | reflexivity].
  - destruct (reentrancy_guard test_env 1%nat (mkState heap_three [])
                [1%nat; 2%nat; 3%nat] test_chain 2 "" 7) as (_ & _ & Hclear).
    + solve_ring.
    + simpl; lia.
    + apply Hclear.
      * intros m Hm. repeat (apply elem_of_cons in Hm as [->|Hm]; [reflexivity|]).
        by apply elem_of_nil in Hm.
      * vm_compute; discriminate.
      * intros m Hm. simpl in Hm.
        repeat (apply elem_of_cons in Hm as [->|Hm]; [solve_chain|]).
        by apply elem_of_nil in Hm.
Defined.

Lemma unresolved_selector_is_noop_witness :
  Resolver_Connect test_env 5 (mkResolver 1%nat) "/$DerivedA/deriveda-x"
    (mkState heap_AB []) = (Ret tt, mkState heap_AB []) /\
  Resolver_Disconnect test_env 5 (mkResolver 1%nat) "/$DerivedA/deriveda-x"
    (mkState heap_AB []) = (Ret tt, mkState heap_AB []).
Proof.
  apply (unresolved_selector_is_noop test_env (mkResolver 1%nat)
           "/$DerivedA/deriveda-x" "DerivedA" (mkState heap_AB []) 1
           [1%nat; 2%nat] 5).
  - reflexivity.
  - vm_compute; discriminate.
  - vm_compute; discriminate.
  - solve_ring.
  - vm_compute; discriminate.
  - intros m Hm. repeat (apply elem_of_cons in Hm as [->|Hm]; [solve_depth|]).
    by apply elem_of_nil in Hm.
  - intros m Hm.
    repeat (apply elem_of_cons in Hm as [->|Hm];
      [erewrite (is_a_iff test_env); [|reflexivity|solve_ancestry];
       vm_compute; intros [H|H]; [discriminate|];
       repeat (apply elem_of_cons in H as [H|H]; [discriminate|]);
       by apply elem_of_nil in H|]).
    by apply elem_of_nil in Hm.
  - simpl; lia.
Defined.

Lemma DoQueryInterface_first_match_witness :
  ring heap_AB 1%nat [1%nat; 2%nat] /\
  live heap_AB [1%nat; 2%nat] /\
  exists r, DoQueryInterface test_env 5 1%nat BaseB_iid (mkState heap_AB [])
            = (Ret r, mkState heap_AB []) /\ r = 2%nat.
Proof.
  assert (Hr : ring heap_AB 1%nat [1%nat; 2%nat]) by solve_ring.
  assert (Hl : live heap_AB [1%nat; 2%nat]) by (vm_compute; discriminate).
  split; [exact Hr|]. split; [exact Hl|].
  destruct (DoQueryInterface_first_match test_env 1%nat BaseB_iid
              (mkState heap_AB []) 1 [1%nat; 2%nat] 5 Hr Hl) as (r & Hrun & _).
  - intros m Hm. apply elem_of_cons in Hm as [->|Hm]; [solve_depth|].
    apply list_elem_of_singleton in Hm as ->. solve_depth.
  - simpl; lia.
  - exists r. split; [exact Hrun|].
    vm_compute in Hrun. by injection Hrun as <-.
Defined.

Lemma DoQueryInterface_root_is_receiver_witness :
  DoQueryInterface test_env 5 2%nat (Object_iid test_env) (mkState heap_AB [])
  = (Ret 2%nat, mkState heap_AB []).
Proof.
  apply (DoQueryInterface_root_is_receiver test_env 2%nat (mkState heap_AB []) 1
           [2%nat; 1%nat] 5).
  - solve_ring.
  - vm_compute; discriminate.
  - solve_depth.
  - simpl; lia.
  - lia.
Defined.

(** * Further properties *)

(** ** The parent table *)

Lemma resize_length n v : length (resize n v) = n.
Proof.
  unfold resize. rewrite length_app, length_take, repeat_length. lia.
Qed.

Lemma lookup_repeat (x : N) n i : (i < n)%nat -> repeat x n !! i = Some x.
Proof.
  revert i. induction n as [|n IH]; intros i Hi; [lia|].
  destruct i as [|i]; simpl; [done|]. apply IH. lia.
Qed.

Lemma resize_lookup n v i :
  (i < n)%nat -> resize n v !! i = Some (default 0 (v !! i)).
Proof.
  intros Hi. unfold resize.
  destruct (decide (i < length v)%nat) as [Hlt|Hge].
  - rewrite lookup_app_l by (rewrite length_take; lia).
    rewrite lookup_take_lt by done.
    destruct (lookup_lt_is_Some_2 v i Hlt) as [x Hx]. by rewrite Hx.
  - rewrite lookup_app_r by (rewrite length_take; lia).
    rewrite lookup_repeat by (rewrite length_take; lia).
    by rewrite (lookup_ge_None_2 v i) by lia.
Qed.

Lemma SetParent_length child parent t :
  length (m_parents (SetParent child parent t)) = S (N.to_nat child).
Proof.
  unfold SetParent. simpl. rewrite length_insert, resize_length. lia.
Qed.

Lemma SetParent_lookup_eq child parent t :
  m_parents (SetParent child parent t) !! N.to_nat child = Some parent.
Proof.
  unfold SetParent. simpl. apply list_lookup_insert_eq.
  rewrite resize_length. lia.
Qed.

Lemma SetParent_lookup_lt child parent t i :
  i < child ->
  m_parents (SetParent child parent t) !! N.to_nat i
  = Some (default 0 (m_parents t !! N.to_nat i)).
Proof.
  intros Hi. unfold SetParent. simpl.
  rewrite list_lookup_insert_ne by lia. apply resize_lookup. lia.
Qed.

Lemma LookupParent_run E child p s :
  m_parents (iid_tree E) !! N.to_nat child = Some p ->
  LookupParent E child s = (Ret p, s).
Proof.
  intros Hp. unfold LookupParent.
  pose proof (lookup_lt_Some _ _ _ Hp) as Hlt.
  replace (child <? N.of_nat (length (m_parents (iid_tree E)))) with true
    by (symmetry; apply N.ltb_lt; lia).
  rewrite (bind_run _ _ _ _ _ (assert_run s)). by rewrite Hp.
Qed.

(** X1. After SetParent (child, parent), LookupParent (child) is parent;
    an identifier below child keeps the parent it had, and has parent 0
    when the table did not reach it before. *)
Theorem SetParent_then_LookupParent E child parent i s :
  LookupParent (with_tree (SetParent child parent (iid_tree E)) E) child s
  = (Ret parent, s) /\
  (i < child ->
   LookupParent (with_tree (SetParent child parent (iid_tree E)) E) i s
   = (Ret (default 0 (m_parents (iid_tree E) !! N.to_nat i)), s)).
Proof.
  split.
  - apply LookupParent_run. unfold with_tree. cbn [iid_tree].
    apply SetParent_lookup_eq.
  - intros Hi. apply LookupParent_run. unfold with_tree. cbn [iid_tree].
    by apply SetParent_lookup_lt.
Qed.

(** X2. SetParent resizes the table to child + 1 entries: an identifier
    above child has no parent afterwards, registered before or not, and
    LookupParent on it stops on its assertion. *)
Theorem SetParent_drops_higher E child parent i s :
  child < i ->
  LookupParent (with_tree (SetParent child parent (iid_tree E)) E) i s
  = (Stop AssertFailed, s).
Proof.
  intros Hi. unfold LookupParent, with_tree. cbn [iid_tree].
  rewrite SetParent_length.
  replace (i <? N.of_nat (S (N.to_nat child))) with false
    by (symmetry; apply N.ltb_ge; lia).
  done.
Qed.

Lemma ancestry_below E x l y :
  ancestry E x l -> y ∈ l -> (N.to_nat y < length (m_parents (iid_tree E)))%nat.
Proof.
  induction 1 as [|t p l Hne Hp Ha IH]; intros Hy; [by apply elem_of_nil in Hy|].
  apply elem_of_cons in Hy as [->|Hy]; [|by apply IH].
  unfold parent_of in Hp. by apply lookup_lt_Some in Hp.
Qed.

Lemma ancestry_with_SetParent E child parent x l :
  (length (m_parents (iid_tree E)) <= N.to_nat child)%nat ->
  ancestry E x l ->
  ancestry (with_tree (SetParent child parent (iid_tree E)) E) x l.
Proof.
  intros Hfresh. induction 1 as [|t p l Hne Hp Ha IH].
  - apply (ancestry_root (with_tree _ E)).
  - apply (ancestry_step (with_tree _ E) t p l); [done| |done].
    unfold parent_of, with_tree in *. cbn [iid_tree].
    pose proof (lookup_lt_Some _ _ _ Hp) as Hlt.
    rewrite SetParent_lookup_lt by lia. by rewrite Hp.
Qed.

(** X3. MakeInterfaceId with an identifier that lies beyond the table, as
    a new allocation does, stops on its assertion when the identifier does
    not fit 16 bits; otherwise it keeps the chain of every type registered
    before and gives the new type the chain of its parent with itself in
    front. *)
Theorem MakeInterfaceId_extends_ancestry E uid parent lp :
  N.of_nat (length (m_parents (iid_tree E))) <= uid ->
  uid <> Object_iid E ->
  ancestry E parent lp ->
  (65535 < uid -> MakeInterfaceId uid parent (iid_tree E) = Stop AssertFailed) /\
  (uid <= 65535 ->
   exists t', MakeInterfaceId uid parent (iid_tree E) = Ret t' /\
     ancestry (with_tree t' E) uid (uid :: lp) /\
     forall x l, ancestry E x l -> ancestry (with_tree t' E) x l).
Proof.
  intros Hfresh Hroot Hpar. unfold MakeInterfaceId. split.
  - intros Hbig. by replace (uid <=? 65535) with false
      by (symmetry; apply N.leb_gt; lia).
  - intros Hfit. replace (uid <=? 65535) with true
      by (symmetry; apply N.leb_le; lia).
    assert (Hu : uint16 uid = uid).
    { unfold uint16. apply N.mod_small. change (2 ^ 16) with 65536. lia. }
    rewrite Hu. eexists. split; [done|]. split.
    + apply (ancestry_step (with_tree _ E) uid parent lp); [done| |].
      * unfold parent_of, with_tree. cbn [iid_tree]. apply SetParent_lookup_eq.
      * apply ancestry_with_SetParent; [lia | done].
    + intros x l Ha. apply ancestry_with_SetParent; [lia | done].
Qed.

(** ** Accessors and lossy conversions *)

Section AccessorConversions.

Context {ObjectBase T Attribute V R : Type}.
Context {object_cast : Downcast ObjectBase T}.
Context {value_cast : Downcast Attribute V}.
Context {boxed : BoxedValue V R}.

(** X22. For an accessor bound to a data member, Set followed by Get
    leaves in the second box the value of the first as converted to the
    type of the member and back, whether or not that conversion loses
    anything. *)
Theorem member_variable_set_get_converts {U : Type} (memberVariable : Field T U)
    (to_U : R -> U) (of_U : U -> R)
    (object : ObjectBase) (obj : T) (val outBox : Attribute) (v w : V) :
  down_after_put ObjectBase T object_cast ->
  down_after_put Attribute V value_cast ->
  (forall (u : U) (x : T), field_get (field_set u x) = u) ->
  down object = Some obj -> down val = Some v -> down outBox = Some w ->
  let a := MemberVariable memberVariable to_U of_U in
  exists object',
    AccessorHelper_Set a object val = (true, object') /\
    AccessorHelper_Get a object' outBox
    = (true, put (value_Set (of_U (to_U (value_Get v))) w) outBox) /\
    down (put (value_Set (of_U (to_U (value_Get v))) w) outBox)
    = Some (value_Set (of_U (to_U (value_Get v))) w).
Proof.
  intros Hobj Hval Hfield Ho Hv Hw a.
  exists (put (field_set (to_U (value_Get v)) obj) object).
  split; [|split].
  - unfold AccessorHelper_Set. by rewrite Hv, Ho.
  - unfold AccessorHelper_Get. rewrite Hw, (Hobj object obj _ Ho). simpl.
    by rewrite Hfield.
  - by apply (Hval outBox w).
Qed.

End AccessorConversions.

(** ** The further properties on the self-test objects *)

Lemma SetParent_then_LookupParent_witness :
  LookupParent (with_tree (SetParent 6 3 test_tree) test_env) 6 (mkState ∅ [])
  = (Ret 3, mkState ∅ []) /\
  LookupParent (with_tree (SetParent 6 3 test_tree) test_env) 3 (mkState ∅ [])
  = (Ret 2, mkState ∅ []).
Proof.
  destruct (SetParent_then_LookupParent test_env 6 3 3 (mkState ∅ [])) as [H1 H2].
  split; [exact H1|]. apply H2. reflexivity.
Defined.

Lemma SetParent_drops_higher_witness :
  LookupParent (with_tree (SetParent 2 1 test_tree) test_env) 5 (mkState ∅ [])
  = (Stop AssertFailed, mkState ∅ []).
Proof.
  apply (SetParent_drops_higher test_env 2 1 5 (mkState ∅ [])). reflexivity.
Defined.

Lemma MakeInterfaceId_extends_ancestry_witness :
  exists t', MakeInterfaceId 6 DerivedA_iid test_tree = Ret t' /\
    ancestry (with_tree t' test_env) 6 [6; DerivedA_iid; BaseA_iid] /\
    forall x l, ancestry test_env x l -> ancestry (with_tree t' test_env) x l.
Proof.
  destruct (MakeInterfaceId_extends_ancestry test_env 6 DerivedA_iid
              [DerivedA_iid; BaseA_iid]) as [_ Hfit].
  - vm_compute. discriminate.
  - discriminate.
  - solve_ancestry.
  - apply Hfit. vm_compute. discriminate.
Defined.

Lemma constructed_object_is_singleton_ring_witness :
  ring (<[3%nat := new_Object test_env 3]> heap_AB) 3%nat [3%nat] /\
  DoQueryInterface test_env 2 3%nat (Object_iid test_env)
    (mkState (<[3%nat := new_Object test_env 3]> heap_AB) [])
  = (Ret 3%nat, mkState (<[3%nat := new_Object test_env 3]> heap_AB) []).
Proof.
  destruct (constructed_object_is_singleton_ring test_env heap_AB 3%nat [] 2)
    as (Hr & _ & _ & _ & Hq & _).
  - reflexivity.
  - discriminate.
  - lia.
  - split; [exact Hr | exact Hq].
Defined.

Lemma CheckLoose_member_independent_witness :
  CheckLoose 3 3%nat (mkState heap_three []) = CheckLoose 3 1%nat (mkState heap_three []).
Proof.
  apply (CheckLoose_member_independent 1%nat (mkState heap_three [])
           [1%nat; 2%nat; 3%nat] 3%nat 3).
  - solve_ring.
  - compute_done.
  - simpl; lia.
Defined.

Lemma Check_implies_CheckLoose_witness :
  CheckLoose 2 1%nat (mkState heap_A0B1 []) = (Ret true, mkState heap_A0B1 []).
Proof.
  apply (Check_implies_CheckLoose 1%nat (mkState heap_A0B1 [])
           [1%nat; 2%nat] 2%nat 1%nat 2).
  - solve_ring.
  - compute_done.
  - compute_done.
  - reflexivity.
  - reflexivity.
  - simpl; lia.
Defined.

Lemma unreferenced_ring_stops_witness :
  DoQueryInterface test_env 2 1%nat BaseA_iid (mkState heap_A0B0 [])
  = (Stop AssertFailed, mkState heap_A0B0 []) /\
  GetTraceResolver 2 1%nat (mkState heap_A0B0 [])
  = (Stop AssertFailed, mkState heap_A0B0 []) /\
  TraceConnect test_env 2 1%nat "/$BaseB/baseb-x" (mkState heap_A0B0 [])
  = (Stop AssertFailed, mkState heap_A0B0 []) /\
  TraceDisconnect test_env 2 1%nat "/$BaseB/baseb-x" (mkState heap_A0B0 [])
  = (Stop AssertFailed, mkState heap_A0B0 []).
Proof.
  apply (unreferenced_ring_stops test_env 1%nat (mkState heap_A0B0 [])
           [1%nat; 2%nat] BaseA_iid "/$BaseB/baseb-x" 2).
  - solve_ring.
  - reflexivity.
  - simpl; lia.
Defined.

Lemma DoQueryInterface_own_type_witness :
  DoQueryInterface test_env 4 3%nat BaseB_iid (mkState heap_three [])
  = (Ret 3%nat, mkState heap_three []).
Proof.
  apply (DoQueryInterface_own_type test_env 1%nat 3%nat BaseB_iid
           (mkState heap_three []) 2 [1%nat; 2%nat; 3%nat] 4).
  - solve_ring.
  - vm_compute; discriminate.
  - compute_done.
  - solve_depth.
  - eexists; eexists. split; [reflexivity|]. split; [solve_ancestry|].
    right. compute_done.
  - simpl; lia.
  - lia.
Defined.

Lemma SetInterfaceId_then_query_witness :
  SetInterfaceId 1%nat DerivedA_iid (mkState heap_AB [])
  = (Ret tt, mkState (<[1%nat := set_iid DerivedA_iid
                                   (set_next 2 (CreateObject test_env 1 BaseA_iid))]>
                        heap_AB) []) /\
  DoQueryInterface test_env 2 1%nat DerivedA_iid
    (mkState (<[1%nat := set_iid DerivedA_iid
                           (set_next 2 (CreateObject test_env 1 BaseA_iid))]>
                heap_AB) [])
  = (Ret 1%nat,
     mkState (<[1%nat := set_iid DerivedA_iid
                           (set_next 2 (CreateObject test_env 1 BaseA_iid))]>
                heap_AB) []).
Proof.
  destruct (SetInterfaceId_then_query test_env 1%nat DerivedA_iid (mkState heap_AB [])
              (set_next 2 (CreateObject test_env 1 BaseA_iid))) as [_ Hok].
  - reflexivity.
  - destruct Hok as (Hrun & _ & Hq); [discriminate|].
    split; [exact Hrun|].
    apply (Hq [1%nat; 2%nat] 2%nat).
    + solve_ring.
    + vm_compute; discriminate.
    + simpl; lia.
Defined.



Lemma AddInterface_same_ring_splits_witness :
  (exists s', AddInterface_call 3 1%nat 3%nat (mkState heap_three []) = (Ret tt, s') /\
     ring (heap s') 1%nat [1%nat] /\
     ring (heap s') 3%nat [3%nat; 2%nat] /\
     (forall p, count_of (heap s') p = count_of heap_three p) /\
     trace s' = []) /\
  (exists s', AddInterface_call 2 2%nat 1%nat (mkState heap_A0B1 []) = (Ret tt, s') /\
     ring (heap s') 2%nat [2%nat] /\
     heap s' !! 1%nat = None /\
     trace s' = [EvDelete 1%nat]).
Proof.
  split.
  - destruct (AddInterface_same_ring_splits 1%nat 3%nat (mkState heap_three [])
                [2%nat] [] 3) as (s' & Hrun & Hr & _ & _ & Hkept & _).
    + solve_ring.
    + intros o Ho. vm_compute in Ho. by injection Ho as <-.
    + intros o Ho. vm_compute in Ho. by injection Ho as <-.
    + vm_compute; discriminate.
    + vm_compute; reflexivity.
    + simpl; lia.
    + exists s'. split; [exact Hrun|]. split; [exact Hr|]. apply Hkept.
      exists 3%nat. split; [compute_done | vm_compute; discriminate].
  - destruct (AddInterface_same_ring_splits 2%nat 1%nat (mkState heap_A0B1 [])
                [] [] 2) as (s' & Hrun & Hr & _ & _ & _ & Hfreed).
    + solve_ring.
    + intros o Ho. vm_compute in Ho. by injection Ho as <-.
    + intros o Ho. vm_compute in Ho. by injection Ho as <-.
    + vm_compute; discriminate.
    + vm_compute; reflexivity.
    + simpl; lia.
    + destruct Hfreed as [Hgone Htr].
      * intros m Hm. apply list_elem_of_singleton in Hm as ->. reflexivity.
      * exists s'. split; [exact Hrun|]. split; [exact Hr|].
        split; [apply Hgone; by left | exact Htr].
Defined.

Lemma AddInterface_stops_witness :
  AddInterface_call 2 1%nat 2%nat (mkState heap_unreferenced [])
  = (Stop AssertFailed,
     mkState (<[2%nat := set_count 2 (CreateObject test_env 2 BaseB_iid)]>
                heap_unreferenced) []).
Proof.
  destruct (AddInterface_stops 1%nat 2%nat (mkState heap_unreferenced [])
              (set_count 0 (CreateObject test_env 1 BaseA_iid))
              (CreateObject test_env 2 BaseB_iid) 2) as (_ & _ & Hdead).
  - reflexivity.
  - reflexivity.
  - apply (Hdead [1%nat]).
    + reflexivity.
    + reflexivity.
    + solve_ring.
    + compute_done.
    + reflexivity.
    + simpl; lia.
Defined.


Lemma DoQueryInterface_ignores_flags_witness :
  fst (DoQueryInterface test_env 3 1%nat BaseB_iid (mkState heap_AB []))
  = fst (DoQueryInterface test_env 3 1%nat BaseB_iid (mkState heap_AB_collecting [])).
Proof.
  apply (DoQueryInterface_ignores_flags test_env heap_AB heap_AB_collecting [] []
           1%nat BaseB_iid 3).
  intros p. unfold heap_AB, heap_AB_collecting.
  destruct (decide (p = 1%nat)) as [->|H1]; [vm_compute; auto|].
  destruct (decide (p = 2%nat)) as [->|H2]; [vm_compute; auto|].
  by rewrite !lookup_insert_ne, lookup_empty by done.
Defined.

Lemma Dispose_then_query_unchanged_witness :
  exists s', Dispose 3 1%nat (mkState heap_three []) = (Ret tt, s') /\
    same_links heap_three (heap s') /\
    forall m iid fuel',
      fst (DoQueryInterface test_env fuel' m iid s')
      = fst (DoQueryInterface test_env fuel' m iid (mkState heap_three [])).
Proof.
  apply (Dispose_then_query_unchanged test_env 1%nat (mkState heap_three [])
           [1%nat; 2%nat; 3%nat] 3).
  - solve_ring.
  - simpl; lia.
  - intros m Hm o Ho. repeat (apply elem_of_cons in Hm as [->|Hm];
      [vm_compute in Ho; by injection Ho as <-|]).
    by apply elem_of_nil in Hm.
Defined.

Lemma Dispose_stops_midway_witness :
  exists s', Dispose 3 1%nat (mkState heap_three_last_disposed [])
             = (Stop AssertFailed, s') /\
    trace s' = [EvDoDispose 1%nat; EvDoDispose 2%nat] /\
    (forall x : nat, x ∈ [1%nat; 2%nat] ->
       exists o, heap_three_last_disposed !! x = Some o /\
                 heap s' !! x = Some (set_disposed true o)) /\
    (forall p : nat, p ∉ [1%nat; 2%nat] -> heap s' !! p = heap_three_last_disposed !! p).
Proof.
  apply (Dispose_stops_midway 1%nat (mkState heap_three_last_disposed [])
           [1%nat; 2%nat] 3%nat [] 3).
  - solve_ring.
  - intros m Hm o Ho. repeat (apply elem_of_cons in Hm as [->|Hm];
      [vm_compute in Ho; by injection Ho as <-|]).
    by apply elem_of_nil in Hm.
  - eexists. split; reflexivity.
  - simpl; lia.
Defined.

Lemma MaybeDelete_member_independent_witness :
  exists s1 s2 l',
    MaybeDelete 2 1%nat (mkState heap_A0B0 []) = (Ret tt, s1) /\
    MaybeDelete 2 2%nat (mkState heap_A0B0 []) = (Ret tt, s2) /\
    heap s1 = heap s2 /\
    ring heap_A0B0 2%nat l' /\ l' ≡ₚ [1%nat; 2%nat] /\
    trace s2 = [] ++ map EvDelete l'.
Proof.
  apply (MaybeDelete_member_independent 1%nat (mkState heap_A0B0 [])
           [1%nat; 2%nat] 2%nat 2).
  - solve_ring.
  - compute_done.
  - simpl; lia.
  - intros x Hx. repeat (apply elem_of_cons in Hx as [->|Hx]; [reflexivity|]).
    by apply elem_of_nil in Hx.
Defined.

Lemma path_without_selector_is_ignored_witness :
  dollar_pos_nonzero (GetElement test_env "/base$a-x") = true /\
  Resolver_Connect test_env 1 (mkResolver 1%nat) "/base$a-x" (mkState heap_A0B0 [])
  = (Ret tt, mkState heap_A0B0 []) /\
  Resolver_Disconnect test_env 1 (mkResolver 1%nat) "/base$a-x" (mkState heap_A0B0 [])
  = (Ret tt, mkState heap_A0B0 []).
Proof.
  apply (path_without_selector_is_ignored test_env (mkResolver 1%nat) "/base$a-x"
           (mkState heap_A0B0 []) 1).
  - intros rest H. vm_compute in H. discriminate.
  - lia.
Defined.

Lemma unregistered_selector_stops_witness :
  Resolver_Connect test_env 1 (mkResolver 1%nat) "/$Nowhere/x" (mkState heap_AB [])
  = (Stop AssertFailed, mkState heap_AB []) /\
  Resolver_Disconnect test_env 1 (mkResolver 1%nat) "/$Nowhere/x" (mkState heap_AB [])
  = (Stop AssertFailed, mkState heap_AB []).
Proof.
  apply (unregistered_selector_stops test_env (mkResolver 1%nat) "/$Nowhere/x"
           "Nowhere" (mkState heap_AB []) 1).
  - reflexivity.
  - left. reflexivity.
  - lia.
Defined.


Lemma member_variable_set_get_converts_witness :
  exists object',
    AccessorHelper_Set (MemberVariable Sample_m_value to_uint16 (fun u : N => u))
      (IsSample (mkSample 7 "n0")) (IntegerBox 65578) = (true, object') /\
    AccessorHelper_Get (MemberVariable Sample_m_value to_uint16 (fun u : N => u))
      object' (IntegerBox 0) = (true, IntegerBox 42) /\
    down (IntegerBox 42) = Some 42.
Proof.
  apply (@member_variable_set_get_converts SomeObject Sample SomeAttribute N N
           Sample_cast Integer_cast Integer_value N
           Sample_m_value to_uint16 (fun u : N => u)
           (IsSample (mkSample 7 "n0")) (mkSample 7 "n0")
           (IntegerBox 65578) (IntegerBox 0) 65578 0).
  - intros [x|n] d d' H; simpl in *; [reflexivity | discriminate].
  - intros [n|x] d d' H; simpl in *; [reflexivity | discriminate].
  - reflexivity.
  - reflexivity.
  - reflexivity.
  - reflexivity.
Defined.
